(** * TruffleHog fork: the Exa detector and the REST scan service

    A shallow embedding of [pkg/detectors/exa/exa.go] and
    [pkg/api/server.go], and the properties of the specification that
    are settled on it.

    Go strings are byte sequences and are modelled by [string] (a list
    of 8-bit [ascii]); Go [int] counters are modelled by [Z] (every
    counter of the service is bounded by the length of a slice, so no
    wrap-around can occur); a Go [map] is a [gmap], the key set of a
    [map[string]struct{}] is a [gset]; pointers into the Go heap are
    indices into a list of records; a run-time panic is [None]. *)

From stdpp Require Import base option list gmap strings sets.
From Stdlib Require Import ZArith Ascii String Lia.

#[local] Set Warnings "-clear-no-such-hyp,-register-all".

Local Open Scope string_scope.

(** ** Strings as Go has them *)

(** [s[:n]]: panics when [n] exceeds [len(s)]. *)
Definition slice_to (s : string) (n : nat) : option string :=
  if decide (n ≤ String.length s)%nat then Some (substring 0 n s) else None.

(** [strings.Contains(s, sub)], used to state what a payload discloses. *)
Fixpoint Contains (s sub : string) : bool :=
  if String.prefix sub s then true
  else match s with
       | EmptyString => false
       | String _ s' => Contains s' sub
       end.

(** ** The pattern language of [keyPat] *)

Definition in_range (lo hi c : ascii) : bool :=
  (N_of_ascii lo <=? N_of_ascii c)%N && (N_of_ascii c <=? N_of_ascii hi)%N.

(** [\w] of RE2: [0-9A-Za-z_]. *)
Definition is_word (c : ascii) : bool :=
  in_range "0" "9" c || in_range "A" "Z" c || in_range "a" "z" c
  || Ascii.eqb c "_".

(** The class [a-f0-9]. *)
Definition hex_lower (c : ascii) : bool :=
  in_range "a" "f" c || in_range "0" "9" c.

Inductive piece : Type :=
  | Bnd                                    (* \b *)
  | Rep (cls : ascii → bool) (n : nat)     (* [cls]{n} *)
  | Lit (c : ascii).                       (* a literal byte *)

Definition word_before (prev : option ascii) : bool :=
  match prev with Some c => is_word c | None => false end.

Definition word_after (s : string) : bool :=
  match s with String c _ => is_word c | EmptyString => false end.

(** [\b] holds between two positions exactly one of which is a word byte. *)
Definition at_boundary (prev : option ascii) (s : string) : bool :=
  xorb (word_before prev) (word_after s).

Fixpoint take_class (cls : ascii → bool) (n : nat) (s : string)
  : option (string * string) :=
  match n with
  | O => Some (EmptyString, s)
  | S k =>
      match s with
      | String c s' =>
          if cls c then
            '(m, r) ← take_class cls k s'; Some (String c m, r)
          else None
      | EmptyString => None
      end
  end.

(** The byte that precedes the rest of the input once [m] was consumed. *)
Fixpoint last_byte (prev : option ascii) (m : string) : option ascii :=
  match m with
  | EmptyString => prev
  | String c m' => last_byte (Some c) m'
  end.

(** Anchored match of a sequence of pieces: the text consumed and the
    rest of the input.  No piece offers a choice, so the leftmost-first
    match is the only one. *)
Fixpoint match_pieces (ps : list piece) (prev : option ascii) (s : string)
  : option (string * string) :=
  match ps with
  | [] => Some (EmptyString, s)
  | Bnd :: ps' =>
      if at_boundary prev s then match_pieces ps' prev s else None
  | Rep cls n :: ps' =>
      '(m, r) ← take_class cls n s;
      '(m', r') ← match_pieces ps' (last_byte prev m) r;
      Some (m ++ m', r')
  | Lit c :: ps' =>
      match s with
      | String c' s' =>
          if Ascii.eqb c c' then
            '(m', r') ← match_pieces ps' (Some c') s';
            Some (String c' m', r')
          else None
      | EmptyString => None
      end
  end.

(** A pattern with one capture group: [pre ( grp ) post]. *)
Record Regexp : Type := MustCompile {
  re_pre : list piece;
  re_grp : list piece;
  re_post : list piece;
}.

(** One anchored attempt: [[match[0]; match[1]]]. *)
Definition match_here (re : Regexp) (prev : option ascii) (s : string)
  : option (list string) :=
  '(m1, r1) ← match_pieces (re_pre re) prev s;
  '(g, r2) ← match_pieces (re_grp re) (last_byte prev m1) r1;
  '(m3, _) ← match_pieces (re_post re) (last_byte (last_byte prev m1) g) r2;
  Some [m1 ++ g ++ m3; g].

Definition whole (sub : list string) : string := default EmptyString (sub !! 0).

(** [re.FindAllStringSubmatch(s, -1)]: successive non-overlapping
    matches from the left.  [skip] counts the bytes of the previous
    match that are still to be stepped over. *)
Fixpoint find_all_from (re : Regexp) (prev : option ascii) (skip : nat)
    (s : string) : list (list string) :=
  let here := match skip with O => match_here re prev s | S _ => None end in
  let rest (k : nat) :=
    match s with
    | EmptyString => []
    | String c s' => find_all_from re (Some c) k s'
    end in
  match here with
  | Some sub => sub :: rest (Nat.pred (String.length (whole sub)))
  | None => rest (Nat.pred skip)
  end.

Definition FindAllStringSubmatch (re : Regexp) (s : string) : list (list string) :=
  find_all_from re None 0 s.

(** ** [encoding/json] values *)

Inductive json : Type :=
  | JString (s : string)
  | JNumber (n : Z)
  | JBool (b : bool)
  | JArray (l : list json)
  | JObject (fs : list (string * json)).

(** The member [k] of an object. *)
Definition member (k : string) (j : json) : option json :=
  match j with
  | JObject fs => snd <$> head (filter (λ kv, kv.1 = k) fs)
  | _ => None
  end.

(** A field tagged [omitempty]. *)
Definition omitempty_string (k v : string) : list (string * json) :=
  if decide (v = "") then [] else [(k, JString v)].

(** ** [net/http] as the detector and the service use it *)

Definition error : Type := string.

Record Context : Type := { ctx_name : string }.

Record Request : Type := {
  req_Method : string;
  req_URL : string;
  req_Header : list (string * string);
  req_Body : option json;
  req_ctx : option Context;
}.

Record Response : Type := { StatusCode : Z }.

(** [client.Do(req)]: a response, or a transport error. *)
Definition Client : Type := Request → error + Response.

(** [req.Header.Set(k, v)]; keys are compared as written. *)
Definition Header_Set (k v : string) (r : Request) : Request :=
  {| req_Method := req_Method r; req_URL := req_URL r;
     req_Header := (k, v) :: filter (λ kv, kv.1 ≠ k) (req_Header r);
     req_Body := req_Body r; req_ctx := req_ctx r |}.

Definition Header_Get (k : string) (r : Request) : option string :=
  snd <$> head (filter (λ kv, kv.1 = k) (req_Header r)).

(** ** [pkg/pb/detectorspb] and [pkg/detectors]: what the sources use *)

Module detectorspb.

Inductive DetectorType : Type :=
  | DetectorType_Exa
  | DetectorType_Perplexity.

(** The generated [String] method prints the name of the enum value. *)
Definition String_ (t : DetectorType) : string :=
  match t with
  | DetectorType_Exa => "Exa"
  | DetectorType_Perplexity => "Perplexity"
  end.

End detectorspb.

Module detectors.

Record SourceMetadata : Type := { GetRepository : string }.

Record Result : Type := {
  DetectorType : detectorspb.DetectorType;
  DetectorName : string;
  Verified : bool;
  Raw : string;
  Redacted : string;
  ExtraData : gmap string string;
  SourceMetadata_ : option SourceMetadata;
  verificationError : option error;
}.

(** Modelled from the spec: [Result.SetVerificationError] of
    [pkg/detectors] is not among the sources; [verification_error] is
    "present only when verification was attempted but could not be
    conclusively resolved", so a nil error leaves the field unset. *)
Definition SetVerificationError (e : option error) (r : Result) : Result :=
  {| DetectorType := DetectorType r; DetectorName := DetectorName r;
     Verified := Verified r; Raw := Raw r; Redacted := Redacted r;
     ExtraData := ExtraData r; SourceMetadata_ := SourceMetadata_ r;
     verificationError := e |}.

Definition set_Verified (v : bool) (r : Result) : Result :=
  {| DetectorType := DetectorType r; DetectorName := DetectorName r;
     Verified := v; Raw := Raw r; Redacted := Redacted r;
     ExtraData := ExtraData r; SourceMetadata_ := SourceMetadata_ r;
     verificationError := verificationError r |}.

(** The interface [Detector].  The order in which Go visits a map and
    the default client of the package are arguments of [FromData]. *)
Class Detector (S : Type) : Type := {
  Detector_Keywords : S → list string;
  Detector_FromData :
    (gset string → list string) → Client → S → option Context → bool →
    string → option (list Result);
  Detector_Type : S → detectorspb.DetectorType;
  Detector_Description : S → string;
}.

End detectors.

(** ** [pkg/detectors/exa/exa.go] *)

Module exa.

Record Scanner : Type := { client : option Client }.

(** [\b([a-f0-9]{8}-[a-f0-9]{4}-[a-f0-9]{4}-[a-f0-9]{4}-[a-f0-9]{12})\b] *)
Definition keyPat : Regexp :=
  MustCompile
    [Bnd]
    [Rep hex_lower 8; Lit "-"; Rep hex_lower 4; Lit "-"; Rep hex_lower 4;
     Lit "-"; Rep hex_lower 4; Lit "-"; Rep hex_lower 12]
    [Bnd].

Definition Keywords (s : Scanner) : list string := ["exa"; "exa_api_key"].

(** [http.NewRequestWithContext(ctx, "GET", url, nil)]: the method and
    the URL are constants that parse; a nil context is refused. *)
Definition NewRequestWithContext (ctx : option Context) (method url : string)
  : Request * option error :=
  match ctx with
  | None =>
      ({| req_Method := ""; req_URL := ""; req_Header := [];
          req_Body := None; req_ctx := None |},
       Some "net/http: nil Context")
  | Some _ =>
      ({| req_Method := method; req_URL := url; req_Header := [];
          req_Body := None; req_ctx := ctx |}, None)
  end.

(** [fmt.Errorf("unexpected HTTP response status %d", code)]; the digits
    of [%d] are not rendered. *)
Definition unexpected_status (code : Z) : error :=
  "unexpected HTTP response status".

Definition verifyToken (ctx : option Context) (cl : Client) (token : string)
  : bool * option error :=
  match NewRequestWithContext ctx "GET"
          "https://api.exa.ai/search?query=test&numResults=1" with
  | (_, Some err) => (false, Some err)
  | (req, None) =>
      let req := Header_Set "x-api-key" token req in
      match cl req with
      | inl err => (false, Some err)
      | inr res =>
          if decide (StatusCode res = 200%Z) then (true, None)
          else if decide (StatusCode res = 401%Z ∨ StatusCode res = 403%Z)
               then (false, None)
               else (false, Some (unexpected_status (StatusCode res)))
      end
  end.

(** The first loop of [FromData]: [uniqueMatches[match[1]] = struct{}{}]. *)
Definition collect (matches : list (list string)) : option (gset string) :=
  foldl (λ acc sub, um ← acc; tok ← sub !! 1%nat; Some ({[ tok ]} ∪ um))
        (Some ∅) matches.

(** The body of the second loop, for one key of [uniqueMatches]. *)
Definition result_of (defaultClient : Client) (s : Scanner)
    (ctx : option Context) (verify : bool) (token : string)
  : option detectors.Result :=
  prefix8 ← slice_to token 8;
  let s1 := {| detectors.DetectorType := detectorspb.DetectorType_Exa;
               detectors.DetectorName := "";
               detectors.Verified := false;
               detectors.Raw := token;
               detectors.Redacted := prefix8 ++ "...";
               detectors.ExtraData := ∅;
               detectors.SourceMetadata_ := None;
               detectors.verificationError := None |} in
  if verify then
    let cl := match client s with Some c => c | None => defaultClient end in
    let '(verified, verificationErr) := verifyToken ctx cl token in
    Some (detectors.SetVerificationError verificationErr
            (detectors.set_Verified verified s1))
  else Some s1.

(** [FromData].  [range] is the order in which Go visits the keys of
    the map, which the language leaves unspecified; [None] is a panic.
    The returned [err] is always nil and is left out. *)
Definition FromData (range : gset string → list string)
    (defaultClient : Client) (s : Scanner)
    (ctx : option Context) (verify : bool) (data : string)
  : option (list detectors.Result) :=
  let dataStr := data in
  uniqueMatches ← collect (FindAllStringSubmatch keyPat dataStr);
  mapM (result_of defaultClient s ctx verify) (range uniqueMatches).

Definition Type_ (s : Scanner) : detectorspb.DetectorType :=
  detectorspb.DetectorType_Exa.

Definition Description (s : Scanner) : string :=
  "Exa provides AI-powered search capabilities. API keys can be used to access their semantic search engine.".

(** [Scanner] implements [detectors.Detector]. *)
#[export] Instance Scanner_Detector : detectors.Detector Scanner := {|
  detectors.Detector_Keywords := Keywords;
  detectors.Detector_FromData := FromData;
  detectors.Detector_Type := Type_;
  detectors.Detector_Description := Description;
|}.

End exa.

(** ** [pkg/api/server.go] *)

Module api.

Module ScanRequest.
Record t : Type := {
  RepoURL : string;
  WebhookURL : string;
  Verify : bool;
  IncludeOnly : list string;
}.
End ScanRequest.

Module ScanResponse.
Record t : Type := {
  ScanID : string;
  Status : string;
  Message : string;
  CreatedAt : string;
}.

Definition Marshal (r : t) : json :=
  JObject [("scan_id", JString (ScanID r)); ("status", JString (Status r));
           ("message", JString (Message r));
           ("created_at", JString (CreatedAt r))].
End ScanResponse.

Module SecretResult.
Record t : Type := {
  DetectorType : string;
  DetectorName : string;
  Verified : bool;
  Raw : string;
  Redacted : string;
  ExtraData : gmap string string;
  SourceName : string;
  SourceType : string;
}.

Definition set_Source (name type : string) (x : t) : t :=
  {| DetectorType := DetectorType x; DetectorName := DetectorName x;
     Verified := Verified x; Raw := Raw x; Redacted := Redacted x;
     ExtraData := ExtraData x; SourceName := name; SourceType := type |}.

(** The struct tags: [raw] and [extra_data] are [omitempty]. *)
Definition Marshal (x : t) : json :=
  JObject
    ([("detector_type", JString (DetectorType x));
      ("detector_name", JString (DetectorName x));
      ("verified", JBool (Verified x))]
     ++ omitempty_string "raw" (Raw x)
     ++ [("redacted", JString (Redacted x))]
     ++ (if decide (ExtraData x = ∅) then []
         else [("extra_data",
                JObject (prod_map id JString <$> map_to_list (ExtraData x)))])
     ++ [("source_name", JString (SourceName x));
         ("source_type", JString (SourceType x))])%list.
End SecretResult.

Module ScanResult.
Record t : Type := {
  ScanID : string;
  Status : string;
  RepoURL : string;
  StartedAt : string;
  CompletedAt : string;
  TotalSecrets : Z;
  Verified : Z;
  Unverified : Z;
  Secrets : list SecretResult.t;
  Error : string;
}.

Definition set_Status (v : string) (j : t) : t :=
  {| ScanID := ScanID j; Status := v; RepoURL := RepoURL j;
     StartedAt := StartedAt j; CompletedAt := CompletedAt j;
     TotalSecrets := TotalSecrets j; Verified := Verified j;
     Unverified := Unverified j; Secrets := Secrets j; Error := Error j |}.

Definition set_CompletedAt (v : string) (j : t) : t :=
  {| ScanID := ScanID j; Status := Status j; RepoURL := RepoURL j;
     StartedAt := StartedAt j; CompletedAt := v;
     TotalSecrets := TotalSecrets j; Verified := Verified j;
     Unverified := Unverified j; Secrets := Secrets j; Error := Error j |}.

Definition set_Error (v : string) (j : t) : t :=
  {| ScanID := ScanID j; Status := Status j; RepoURL := RepoURL j;
     StartedAt := StartedAt j; CompletedAt := CompletedAt j;
     TotalSecrets := TotalSecrets j; Verified := Verified j;
     Unverified := Unverified j; Secrets := Secrets j; Error := v |}.

Definition set_Secrets (v : list SecretResult.t) (j : t) : t :=
  {| ScanID := ScanID j; Status := Status j; RepoURL := RepoURL j;
     StartedAt := StartedAt j; CompletedAt := CompletedAt j;
     TotalSecrets := TotalSecrets j; Verified := Verified j;
     Unverified := Unverified j; Secrets := v; Error := Error j |}.

Definition set_TotalSecrets (v : Z) (j : t) : t :=
  {| ScanID := ScanID j; Status := Status j; RepoURL := RepoURL j;
     StartedAt := StartedAt j; CompletedAt := CompletedAt j;
     TotalSecrets := v; Verified := Verified j;
     Unverified := Unverified j; Secrets := Secrets j; Error := Error j |}.

(** [scanResult.Verified++] *)
Definition incr_Verified (j : t) : t :=
  {| ScanID := ScanID j; Status := Status j; RepoURL := RepoURL j;
     StartedAt := StartedAt j; CompletedAt := CompletedAt j;
     TotalSecrets := TotalSecrets j; Verified := (Verified j + 1)%Z;
     Unverified := Unverified j; Secrets := Secrets j; Error := Error j |}.

(** [scanResult.Unverified++] *)
Definition incr_Unverified (j : t) : t :=
  {| ScanID := ScanID j; Status := Status j; RepoURL := RepoURL j;
     StartedAt := StartedAt j; CompletedAt := CompletedAt j;
     TotalSecrets := TotalSecrets j; Verified := Verified j;
     Unverified := (Unverified j + 1)%Z; Secrets := Secrets j;
     Error := Error j |}.

(** The struct tags: [completed_at], [secrets] and [error] are
    [omitempty]. *)
Definition Marshal (j : t) : json :=
  JObject
    ([("scan_id", JString (ScanID j)); ("status", JString (Status j));
      ("repo_url", JString (RepoURL j));
      ("started_at", JString (StartedAt j))]
     ++ omitempty_string "completed_at" (CompletedAt j)
     ++ [("total_secrets", JNumber (TotalSecrets j));
         ("verified", JNumber (Verified j));
         ("unverified", JNumber (Unverified j))]
     ++ (match Secrets j with
         | [] => []
         | _ => [("secrets", JArray (SecretResult.Marshal <$> Secrets j))]
         end)
     ++ omitempty_string "error" (Error j))%list.
End ScanResult.

Module WebhookPayload.
Record t : Type := {
  Event : string;
  ScanResult_ : ScanResult.t;
  Timestamp : string;
}.

Definition Marshal (x : t) : json :=
  JObject [("event", JString (Event x));
           ("scan_result", ScanResult.Marshal (ScanResult_ x));
           ("timestamp", JString (Timestamp x))].
End WebhookPayload.

(** [scans] maps an identifier to a pointer; [heap] holds what the
    pointers refer to.  The [engine] field is never read by the code
    below and is left out. *)
Record Server : Type := {
  heap : list ScanResult.t;
  scans : gmap string nat;
  webhookClient : Client;
}.

(** What a handler is given of the request: the method, the outcome of
    decoding the body as a [ScanRequest], and the [scan_id] parameter of
    the query (empty when absent). *)
Record HttpRequest : Type := {
  Method : string;
  Body : error + ScanRequest.t;
  Query_scan_id : string;
}.

Inductive body : Type :=
  | Text (s : string)
  | Json (j : json).

(** What a handler wrote to its [http.ResponseWriter]. *)
Record ResponseWriter : Type := {
  rw_code : Z;
  rw_ContentType : string;
  rw_body : body;
}.

Definition StatusOK : Z := 200.
Definition StatusAccepted : Z := 202.
Definition StatusBadRequest : Z := 400.
Definition StatusNotFound : Z := 404.
Definition StatusMethodNotAllowed : Z := 405.

Definition newline : string := String "010" EmptyString.

(** [http.Error(w, msg, code)]: the message and a line feed, as plain
    text. *)
Definition http_Error (msg : string) (code : Z) : ResponseWriter :=
  {| rw_code := code; rw_ContentType := "text/plain; charset=utf-8";
     rw_body := Text (msg ++ newline) |}.

(** [NewServer]: [engine_Start] is the outcome of [engine.Start], [net]
    the network behind the webhook client. *)
Definition NewServer (engine_Start : option error) (net : Client)
  : error + Server :=
  match engine_Start with
  | Some err => inl ("failed to start engine: " ++ err)
  | None => inr {| heap := []; scans := ∅; webhookClient := net |}
  end.

(** The program counter of a goroutine that runs [performScan]; the
    states after line 176 hold the pointer [scanResult]. *)
Inductive pc : Type :=
  | AtStart
  | AtInit (scanResult : nat)
  | AtSetSourceUnit (scanResult : nat)
  | AtCollect (scanResult : nat)
  | AtWebhook
  | Returned.

Record goroutine : Type := {
  g_scanID : string;
  g_req : ScanRequest.t;
  g_pc : pc;
}.

(** [HandleScan].  [uuid] is what [uuid.New().String()] returns and
    [now] what the clock reads, should the handler get that far; the
    third component is the goroutine started by the [go] statement. *)
Definition HandleScan (uuid now : string) (r : HttpRequest) (s : Server)
  : ResponseWriter * Server * option goroutine :=
  if decide (Method r ≠ "POST") then
    (http_Error "Method not allowed" StatusMethodNotAllowed, s, None)
  else
    match Body r with
    | inl err =>
        (http_Error ("Invalid request body: " ++ err) StatusBadRequest, s,
         None)
    | inr req =>
        if decide (ScanRequest.RepoURL req = "") then
          (http_Error "repo_url is required" StatusBadRequest, s, None)
        else
          let scanID := uuid in
          let scanResult :=
            {| ScanResult.ScanID := scanID;
               ScanResult.Status := "pending";
               ScanResult.RepoURL := ScanRequest.RepoURL req;
               ScanResult.StartedAt := now;
               ScanResult.CompletedAt := "";
               ScanResult.TotalSecrets := 0;
               ScanResult.Verified := 0;
               ScanResult.Unverified := 0;
               ScanResult.Secrets := [];
               ScanResult.Error := "" |} in
          let ptr := List.length (heap s) in
          let s' := {| heap := (heap s ++ [scanResult])%list;
                       scans := <[scanID := ptr]> (scans s);
                       webhookClient := webhookClient s |} in
          let response :=
            {| ScanResponse.ScanID := scanID;
               ScanResponse.Status := "pending";
               ScanResponse.Message := "Scan initiated successfully";
               ScanResponse.CreatedAt := now |} in
          ({| rw_code := StatusAccepted;
              rw_ContentType := "application/json";
              rw_body := Json (ScanResponse.Marshal response) |},
           s',
           Some {| g_scanID := scanID; g_req := req; g_pc := AtStart |})
    end.

(** [HandleGetScan].  A pointer always refers to a record; the last
    case cannot arise. *)
Definition HandleGetScan (r : HttpRequest) (s : Server)
  : ResponseWriter * Server :=
  if decide (Method r ≠ "GET") then
    (http_Error "Method not allowed" StatusMethodNotAllowed, s)
  else
    let scanID := Query_scan_id r in
    if decide (scanID = "") then
      (http_Error "scan_id parameter is required" StatusBadRequest, s)
    else
      match scans s !! scanID with
      | None => (http_Error "Scan not found" StatusNotFound, s)
      | Some ptr =>
          match heap s !! ptr with
          | Some scanResult =>
              ({| rw_code := StatusOK;
                  rw_ContentType := "application/json";
                  rw_body := Json (ScanResult.Marshal scanResult) |}, s)
          | None =>
              ({| rw_code := StatusOK;
                  rw_ContentType := "application/json";
                  rw_body := Text "null" |}, s)
          end
      end.

(** [HandleListScans].  [range] is the order in which Go visits the
    entries of the map. *)
Definition HandleListScans
    (range : gmap string nat → list (string * nat))
    (r : HttpRequest) (s : Server) : ResponseWriter * Server :=
  if decide (Method r ≠ "GET") then
    (http_Error "Method not allowed" StatusMethodNotAllowed, s)
  else
    let scans_ :=
      foldl (λ acc kv, (acc ++ [kv.2])%list) [] (range (scans s)) in
    ({| rw_code := StatusOK;
        rw_ContentType := "application/json";
        rw_body :=
          Json (JObject
                  [("scans",
                    JArray (omap (λ ptr, ScanResult.Marshal <$> heap s !! ptr)
                                 scans_));
                   ("total", JNumber (Z.of_nat (List.length scans_)))]) |},
     s).

(** [updateScanError] *)
Definition updateScanError (now : string) (scanID errorMsg : string)
    (s : Server) : Server :=
  match scans s !! scanID with
  | Some ptr =>
      {| heap :=
           alter (λ j, ScanResult.set_CompletedAt now
                         (ScanResult.set_Error errorMsg
                            (ScanResult.set_Status "failed" j)))
                 ptr (heap s);
         scans := scans s; webhookClient := webhookClient s |}
  | None => s
  end.

(** [http.NewRequest(http.MethodPost, url, nil)]; [url_parses] stands
    for [url.Parse] of the standard library. *)
Definition NewRequest (url_parses : string → bool) (method url : string)
    (body_ : option json) : Request * option error :=
  if url_parses url then
    ({| req_Method := method; req_URL := url; req_Header := [];
        req_Body := body_; req_ctx := Some {| ctx_name := "background" |} |},
     None)
  else
    ({| req_Method := ""; req_URL := ""; req_Header := [];
        req_Body := None; req_ctx := None |},
     Some "parse error").

(** [sendWebhook]: the server afterwards and the requests handed to
    [webhookClient.Do]; [None] is the panic of dereferencing a nil
    pointer.  [json.Marshal] cannot fail on these structs; what it
    returns is bound to [jsonData] and, as in the source, not used
    again.  What the client answers is not looked at. *)
Definition sendWebhook (url_parses : string → bool) (now : string)
    (webhookURL scanID : string) (s : Server)
  : option (Server * list Request) :=
  if decide (webhookURL = "") then Some (s, [])
  else
    ptr ← scans s !! scanID;
    scanResult ← heap s !! ptr;
    let payload :=
      {| WebhookPayload.Event := "scan.completed";
         WebhookPayload.ScanResult_ := scanResult;
         WebhookPayload.Timestamp := now |} in
    let jsonData := WebhookPayload.Marshal payload in
    match NewRequest url_parses "POST" webhookURL None with
    | (_, Some err) => Some (s, [])
    | (req, None) =>
        let req := Header_Set "Content-Type" "application/json" req in
        let req := Header_Set "User-Agent" "TruffleHog-API/1.0" req in
        let req := Header_Set "X-TruffleHog-Event" "scan.completed" req in
        match webhookClient s req with
        | inl err => Some (s, [req])
        | inr resp => Some (s, [req])
        end
    end.

(** The body of the goroutine of lines 200-217, for one result. *)
Definition secret_of (result : detectors.Result) : SecretResult.t :=
  let secret :=
    {| SecretResult.DetectorType :=
         detectorspb.String_ (detectors.DetectorType result);
       SecretResult.DetectorName := detectors.DetectorName result;
       SecretResult.Verified := detectors.Verified result;
       SecretResult.Raw := "";
       SecretResult.Redacted := detectors.Redacted result;
       SecretResult.ExtraData := detectors.ExtraData result;
       SecretResult.SourceName := "";
       SecretResult.SourceType := "" |} in
  match detectors.SourceMetadata_ result with
  | Some md => SecretResult.set_Source (detectors.GetRepository md) "git" secret
  | None => secret
  end.

(** [for result := range resultsChan { ... secrets = append(secrets, secret) }] *)
Definition drain (resultsChan : list detectors.Result) : list SecretResult.t :=
  foldl (λ secrets result, (secrets ++ [secret_of result])%list) []
        resultsChan.

(** The loop of lines 229-235. *)
Definition tally (secrets : list SecretResult.t) (j : ScanResult.t)
  : ScanResult.t :=
  foldl (λ j secret,
           if SecretResult.Verified secret then ScanResult.incr_Verified j
           else ScanResult.incr_Unverified j)
        j secrets.

(** Lines 224-235, applied to the record [scanResult] points to. *)
Definition complete (now : string) (secrets : list SecretResult.t)
    (j : ScanResult.t) : ScanResult.t :=
  tally secrets
    (ScanResult.set_TotalSecrets (Z.of_nat (List.length secrets))
       (ScanResult.set_Secrets secrets
          (ScanResult.set_CompletedAt now
             (ScanResult.set_Status "completed" j)))).

Definition at_pc (c : pc) (g : goroutine) : goroutine :=
  {| g_scanID := g_scanID g; g_req := g_req g; g_pc := c |}.

Definition with_heap (h : list ScanResult.t) (s : Server) : Server :=
  {| heap := h; scans := scans s; webhookClient := webhookClient s |}.

(** One step of [performScan], from one acquisition of the lock or one
    call of a collaborator to the next.  [ext] is the error of the
    collaborator called at this point ([gitSource.Init],
    [conn.SetSourceUnit]), [sent] what was sent on [resultsChan] before
    it is closed: the code as it stands closes the channel at once, which
    is [sent = []].  [None]: a panic, or a goroutine that has returned. *)
Definition performScan_step (url_parses : string → bool) (now : string)
    (ext : option error) (sent : list detectors.Result)
    (g : goroutine) (s : Server)
  : option (goroutine * Server * list Request) :=
  let scanID := g_scanID g in
  let req := g_req g in
  match g_pc g with
  | AtStart =>
      scanResult ← scans s !! scanID;
      _ ← heap s !! scanResult;
      Some (at_pc (AtInit scanResult) g,
            with_heap (alter (ScanResult.set_Status "running") scanResult
                             (heap s)) s,
            [])
  | AtInit scanResult =>
      match ext with
      | Some err =>
          Some (at_pc AtWebhook g,
                updateScanError now scanID
                  ("Failed to initialize git source: " ++ err) s,
                [])
      | None => Some (at_pc (AtSetSourceUnit scanResult) g, s, [])
      end
  | AtSetSourceUnit scanResult =>
      match ext with
      | Some err =>
          Some (at_pc AtWebhook g,
                updateScanError now scanID
                  ("Failed to set source unit: " ++ err) s,
                [])
      | None => Some (at_pc (AtCollect scanResult) g, s, [])
      end
  | AtCollect scanResult =>
      let secrets := drain sent in
      Some (at_pc AtWebhook g,
            with_heap (alter (complete now secrets) scanResult (heap s)) s,
            [])
  | AtWebhook =>
      '(s', out) ← sendWebhook url_parses now
                     (ScanRequest.WebhookURL req) scanID s;
      Some (at_pc Returned g, s', out)
  | Returned => None
  end.

(** ** The service as a transition system *)

(** The server, the goroutines started so far (a returned one stays in
    the list) and the requests handed to the webhook client. *)
Record World : Type := {
  srv : Server;
  goroutines : list goroutine;
  delivered : list Request;
}.

(** What is observed of a step: the request and the response of a
    handler, or the goroutine that moved and what it sent. *)
Inductive event : Type :=
  | Submit (r : HttpRequest) (uuid now : string) (rw : ResponseWriter)
  | GetStatus (r : HttpRequest) (rw : ResponseWriter)
  | List_ (r : HttpRequest) (rw : ResponseWriter)
  | Run (i : nat) (out : list Request).

(** The engine is not wired into [performScan] (the note at line 219):
    nothing is sent on [resultsChan].  So that the consumer and the
    counting loop are exercised, a step may be given any [sent] made of
    results of [FromData] called with the [verify] flag of the request,
    which is how the spec describes the scan; [sent = []] is the code
    as it stands. *)
Definition harvested (verify : bool) (r : detectors.Result) : Prop :=
  ∃ range dc sc ctx data results,
    (∀ m, range m ≡ₚ elements m) ∧
    exa.FromData range dc sc ctx verify data = Some results ∧
    r ∈ results.

Definition produced (verify : bool) (sent : list detectors.Result) : Prop :=
  Forall (harvested verify) sent.

Section transitions.

Variable url_parses : string → bool.
Variable range : gmap string nat → list (string * nat).

(** One atomic action of the service: a handler serving a request, or
    one step of a goroutine.  [uuid.New] is taken to return an
    identifier that is not in use; the clock, the errors of the
    collaborators and the order of map iteration are arbitrary. *)
Inductive step : World → event → World → Prop :=
  | step_HandleScan w r uuid now :
      scans (srv w) !! uuid = None →
      step w
        (Submit r uuid now (HandleScan uuid now r (srv w)).1.1)
        {| srv := (HandleScan uuid now r (srv w)).1.2;
           goroutines :=
             (goroutines w
              ++ option_list (HandleScan uuid now r (srv w)).2)%list;
           delivered := delivered w |}
  | step_HandleGetScan w r :
      step w
        (GetStatus r (HandleGetScan r (srv w)).1)
        {| srv := (HandleGetScan r (srv w)).2;
           goroutines := goroutines w;
           delivered := delivered w |}
  | step_HandleListScans w r :
      step w
        (List_ r (HandleListScans range r (srv w)).1)
        {| srv := (HandleListScans range r (srv w)).2;
           goroutines := goroutines w;
           delivered := delivered w |}
  | step_performScan w i g now ext sent g' s' out :
      goroutines w !! i = Some g →
      produced (ScanRequest.Verify (g_req g)) sent →
      performScan_step url_parses now ext sent g (srv w) = Some (g', s', out) →
      step w (Run i out)
        {| srv := s';
           goroutines := <[i := g']> (goroutines w);
           delivered := (delivered w ++ out)%list |}.

(** Runs of the service, with the events in the order they happen. *)
Inductive run : World → list event → World → Prop :=
  | run_nil w : run w [] w
  | run_snoc w tr w' e w'' :
      run w tr w' → step w' e w'' → run w (tr ++ [e])%list w''.

Definition initial (net : Client) : World :=
  {| srv := {| heap := []; scans := ∅; webhookClient := net |};
     goroutines := []; delivered := [] |}.

Definition reachable (w : World) : Prop :=
  ∃ net tr, run (initial net) tr w.

End transitions.

End api.

(** * Vocabulary of the properties *)

Import api.

(** Every byte of [s] satisfies [p]. *)
Fixpoint string_forallb (p : ascii → bool) (s : string) : bool :=
  match s with
  | EmptyString => true
  | String c s' => p c && string_forallb p s'
  end.

(** The shape 8-4-4-4-12, stated position by position: a hyphen at
    offsets 8, 13, 18 and 23, a byte of [a-f0-9] anywhere else. *)
Definition uuid_byte_ok (i : nat) (c : ascii) : bool :=
  if (i =? 8)%nat || (i =? 13)%nat || (i =? 18)%nat || (i =? 23)%nat
  then Ascii.eqb c "-" else hex_lower c.

Fixpoint uuid_bytes_from (i : nat) (s : string) : bool :=
  match s with
  | EmptyString => true
  | String c s' => uuid_byte_ok i c && uuid_bytes_from (S i) s'
  end.

Definition is_uuid (tok : string) : bool :=
  (String.length tok =? 36)%nat && uuid_bytes_from 0 tok.

(** The redacted form as a function of the literal. *)
Definition redact (tok : string) : string := substring 0 8 tok ++ "...".

Arguments hex_lower : simpl never.

(** Splits a string of known length into its bytes. *)
Ltac explode m H :=
  repeat (destruct m as [|? m]; simpl in H; [discriminate H|]);
  destruct m; [clear H | discriminate H].

(** The first capture group of each match. *)
Definition literals (matches : list (list string)) : list string :=
  omap (λ sub, sub !! 1%nat) matches.

(** Every literal the pattern matches in [data], with repetitions, in
    the order of the input. *)
Definition matched_literals (data : string) : list string :=
  literals (FindAllStringSubmatch exa.keyPat data).

(** The [Result] built for one token when the slice is in bounds. *)
Definition exa_result (dc : Client) (s : exa.Scanner) (ctx : option Context)
    (verify : bool) (token : string) : detectors.Result :=
  let s1 := {| detectors.DetectorType := detectorspb.DetectorType_Exa;
               detectors.DetectorName := "";
               detectors.Verified := false;
               detectors.Raw := token;
               detectors.Redacted := redact token;
               detectors.ExtraData := ∅;
               detectors.SourceMetadata_ := None;
               detectors.verificationError := None |} in
  if verify then
    let cl := match exa.client s with Some c => c | None => dc end in
    detectors.SetVerificationError (exa.verifyToken ctx cl token).2
      (detectors.set_Verified (exa.verifyToken ctx cl token).1 s1)
  else s1.

(** The request [verifyToken] hands to the client. *)
Definition exa_request (c : Context) (token : string) : Request :=
  Header_Set "x-api-key" token
    {| req_Method := "GET";
       req_URL := "https://api.exa.ai/search?query=test&numResults=1";
       req_Header := []; req_Body := None; req_ctx := Some c |}.

(** The endpoint answers [req] with status [code]. *)
Definition responds (cl : Client) (req : Request) (code : Z) : Prop :=
  ∃ res, cl req = inr res ∧ StatusCode res = code.

(** A text with two distinct keys, one of them twice. *)
Definition sample_key1 : string := "12345678-abcd-ef01-2345-6789abcdef01".
Definition sample_key2 : string := "aaaaaaaa-bbbb-cccc-dddd-eeeeeeeeeeee".
Definition sample_data : string :=
  "exa_api_key=" ++ sample_key1 ++ " or " ++ sample_key2 ++ " or again "
  ++ sample_key1.
Definition no_network : Client := λ _, inl "no network".
Definition sample_scanner : exa.Scanner := {| exa.client := None |}.

(** The two terminal states. *)
Definition terminal (st : string) : Prop := st = "completed" ∨ st = "failed".

(** The order of the state machine: pending, running, then one of the
    two terminal states. *)
Definition status_le (a b : string) : Prop :=
  a = b
  ∨ (a = "pending" ∧ (b = "running" ∨ terminal b))
  ∨ (a = "running" ∧ terminal b).

(** The job stored under [id]. *)
Definition job_at (s : Server) (id : string) : option ScanResult.t :=
  ptr ← scans s !! id; heap s !! ptr.

(** A record nothing has been written to since [HandleScan]. *)
Definition untouched (j : ScanResult.t) : Prop :=
  ScanResult.CompletedAt j = "" ∧ ScanResult.TotalSecrets j = 0%Z ∧
  ScanResult.Verified j = 0%Z ∧ ScanResult.Unverified j = 0%Z ∧
  ScanResult.Secrets j = [] ∧ ScanResult.Error j = "".

(** The number of results whose [Verified] is [b]. *)
Definition count_verified (b : bool) (l : list SecretResult.t) : Z :=
  Z.of_nat (List.length (filter (λ x, SecretResult.Verified x = b) l)).

(** The counters agree with the results. *)
Definition counted (j : ScanResult.t) : Prop :=
  ScanResult.TotalSecrets j = Z.of_nat (List.length (ScanResult.Secrets j)) ∧
  ScanResult.Verified j = count_verified true (ScanResult.Secrets j) ∧
  ScanResult.Unverified j = count_verified false (ScanResult.Secrets j).

(** Every stored secret was built by the consumer goroutine from a
    result of the detector. *)
Definition gathered (verify : bool) (j : ScanResult.t) : Prop :=
  Forall (λ x, ∃ r, harvested verify r ∧ x = secret_of r)
         (ScanResult.Secrets j).

(** How far a goroutine has got and what the record of its job holds. *)
Definition pc_agrees (g : goroutine) (p : nat) (j : ScanResult.t) : Prop :=
  match g_pc g with
  | AtStart => ScanResult.Status j = "pending" ∧ untouched j
  | AtInit q | AtSetSourceUnit q | AtCollect q =>
      q = p ∧ ScanResult.Status j = "running" ∧ untouched j
  | AtWebhook | Returned =>
      terminal (ScanResult.Status j) ∧ counted j ∧
      gathered (ScanRequest.Verify (g_req g)) j
  end.

(** The invariant of the service: pointers of the registry refer to
    records carrying their identifier, every job has exactly one
    goroutine, whose progress agrees with the record, and no webhook
    request has a body. *)
Record Inv (w : World) : Prop := {
  inv_ptr : ∀ id p, scans (srv w) !! id = Some p →
            ∃ j, heap (srv w) !! p = Some j ∧ ScanResult.ScanID j = id;
  inv_nodup : NoDup (g_scanID <$> goroutines w);
  inv_pc : ∀ g, g ∈ goroutines w →
           ∃ p j, scans (srv w) !! g_scanID g = Some p ∧
                  heap (srv w) !! p = Some j ∧ pc_agrees g p j;
  inv_owner : ∀ id p, scans (srv w) !! id = Some p →
              ∃ g, g ∈ goroutines w ∧ g_scanID g = id;
  inv_body : Forall (λ req, req_Body req = None) (delivered w);
}.

(** The record [HandleScan] allocates. *)
Definition pending_job (uuid now : string) (req : ScanRequest.t)
  : ScanResult.t :=
  {| ScanResult.ScanID := uuid; ScanResult.Status := "pending";
     ScanResult.RepoURL := ScanRequest.RepoURL req;
     ScanResult.StartedAt := now; ScanResult.CompletedAt := "";
     ScanResult.TotalSecrets := 0; ScanResult.Verified := 0;
     ScanResult.Unverified := 0; ScanResult.Secrets := [];
     ScanResult.Error := "" |}.

(** The body of the 202 response. *)
Definition accepted_body (uuid now : string) : json :=
  JObject [("scan_id", JString uuid); ("status", JString "pending");
           ("message", JString "Scan initiated successfully");
           ("created_at", JString now)].

(** One edge of the state machine, or no change at all. *)
Definition advances (j j' : ScanResult.t) : Prop :=
  j' = j
  ∨ (ScanResult.Status j = "pending" ∧ ScanResult.Status j' = "running")
  ∨ (ScanResult.Status j = "running" ∧ terminal (ScanResult.Status j')).

(** Every string a serialized secret carries. *)
Definition disclosed (x : SecretResult.t) : list string :=
  ([SecretResult.DetectorType x; SecretResult.DetectorName x;
    SecretResult.Raw x; SecretResult.Redacted x;
    SecretResult.SourceName x; SecretResult.SourceType x]
   ++ (map_to_list (SecretResult.ExtraData x) ≫= λ kv, [kv.1; kv.2]))%list.

(** A stored secret has no raw value, serializes without a ["raw"]
    member, and none of its strings contains the literal it was built
    from. *)
Definition safe_secret (x : SecretResult.t) : Prop :=
  SecretResult.Raw x = "" ∧
  member "raw" (SecretResult.Marshal x) = None ∧
  ∃ verify r, harvested verify r ∧ x = secret_of r ∧
    Forall (λ str, Contains str (detectors.Raw r) = false) (disclosed x).

Definition safe_job (j : ScanResult.t) : Prop :=
  Forall safe_secret (ScanResult.Secrets j).

(** The messages of [http.Error] in the two read handlers. *)
Definition read_errors : list string :=
  ["Method not allowed" ++ newline;
   "scan_id parameter is required" ++ newline;
   "Scan not found" ++ newline].

(** The records [HandleListScans] serializes. *)
Definition listed (range : gmap string nat → list (string * nat))
    (s : Server) : list ScanResult.t :=
  omap (λ p, heap s !! p) (snd <$> range (scans s)).

(** The identifier a caller reads in a 202 response. *)
Definition received_id (rw : ResponseWriter) : option string :=
  if decide (rw_code rw = StatusAccepted) then
    match rw_body rw with
    | Json doc =>
        match member "scan_id" doc with
        | Some (JString id) => Some id
        | _ => None
        end
    | Text _ => None
    end
  else None.


(** Scheduling: the world after a submission, and after one step of
    goroutine [i]. *)
Definition submit (uuid now : string) (r : HttpRequest) (w : World) : World :=
  {| srv := (HandleScan uuid now r (srv w)).1.2;
     goroutines :=
       (goroutines w ++ option_list (HandleScan uuid now r (srv w)).2)%list;
     delivered := delivered w |}.

Definition next (url_parses : string → bool) (now : string)
    (ext : option error) (sent : list detectors.Result) (i : nat) (w : World)
  : World :=
  match g ← goroutines w !! i;
        performScan_step url_parses now ext sent g (srv w) with
  | Some (g', s', out) =>
      {| srv := s'; goroutines := <[i := g']> (goroutines w);
         delivered := (delivered w ++ out)%list |}
  | None => w
  end.

Definition sample_request : ScanRequest.t :=
  {| ScanRequest.RepoURL := "https://example/repo.git";
     ScanRequest.WebhookURL := "https://hooks.example/scan";
     ScanRequest.Verify := false;
     ScanRequest.IncludeOnly := [] |}.

Definition sample_post : HttpRequest :=
  {| Method := "POST"; Body := inr sample_request; Query_scan_id := "" |}.

Definition sample_get (id : string) : HttpRequest :=
  {| Method := "GET"; Body := inl "EOF"; Query_scan_id := id |}.

Definition always_parses : string → bool := λ _, true.

Definition ok_network : Client := λ _, inr {| StatusCode := 200 |}.

(** What the detector returns for [sample_data] without verification. *)
Definition sample_sent : list detectors.Result :=
  default [] (exa.FromData elements no_network sample_scanner None false
                sample_data).

Definition sample_goroutine (c : pc) : goroutine :=
  {| g_scanID := "job-1"; g_req := sample_request; g_pc := c |}.

(** One job submitted and run up to its completion. *)
Definition sample_world : World :=
  next always_parses "t1" None sample_sent 0
    (next always_parses "t1" None [] 0
       (next always_parses "t1" None [] 0
          (next always_parses "t1" None [] 0
             (submit "job-1" "t0" sample_post (initial ok_network))))).

(** The same world after the webhook step. *)
Definition final_world : World :=
  next always_parses "t2" None [] 0 sample_world.

Definition sample_job : ScanResult.t :=
  default (pending_job "" "" sample_request)
          (job_at (srv sample_world) "job-1").

Definition sample_webhook_request : Request :=
  Header_Set "X-TruffleHog-Event" "scan.completed"
    (Header_Set "User-Agent" "TruffleHog-API/1.0"
       (Header_Set "Content-Type" "application/json"
          {| req_Method := "POST"; req_URL := "https://hooks.example/scan";
             req_Header := []; req_Body := None;
             req_ctx := Some {| ctx_name := "background" |} |})).

Definition sample_envelope : json :=
  WebhookPayload.Marshal
    {| WebhookPayload.Event := "scan.completed";
       WebhookPayload.ScanResult_ := sample_job;
       WebhookPayload.Timestamp := "t2" |}.

(** * The rest of the sources *)

(** Bytes that are not word bytes: separators around a key. *)
Definition non_word (s : string) : bool :=
  string_forallb (λ c, negb (is_word c)) s.

(** [client := s.client; if client == nil { client = defaultClient }] *)
Definition chosen_client (defaultClient : Client) (s : exa.Scanner) : Client :=
  match exa.client s with Some c => c | None => defaultClient end.

(** The number of steps a goroutine of [performScan] has before it. *)
Definition steps_left (c : pc) : nat :=
  match c with
  | AtStart => 5
  | AtInit _ => 4
  | AtSetSourceUnit _ => 3
  | AtCollect _ => 2
  | AtWebhook => 1
  | Returned => 0
  end.

(** The two messages [performScan] passes to [updateScanError]. *)
Definition failure_messages (err : error) : list string :=
  ["Failed to initialize git source: " ++ err;
   "Failed to set source unit: " ++ err].

(** What [updateScanError] writes into a record. *)
Definition failed_with (now msg : string) (j : ScanResult.t) : ScanResult.t :=
  ScanResult.set_CompletedAt now
    (ScanResult.set_Error msg (ScanResult.set_Status "failed" j)).

(** The writes the code makes to the record of a job. *)
Inductive writes (j : ScanResult.t) : ScanResult.t → Prop :=
  | writes_nothing : writes j j
  | writes_running :
      ScanResult.Status j = "pending" → untouched j →
      writes j (ScanResult.set_Status "running" j)
  | writes_failed now err msg :
      ScanResult.Status j = "running" → untouched j →
      msg ∈ failure_messages err →
      writes j (failed_with now msg j)
  | writes_completed now sent :
      ScanResult.Status j = "running" → untouched j →
      writes j (complete now (drain sent) j).

(** What a stored record looks like in each state. *)
Definition shaped (j : ScanResult.t) : Prop :=
  ScanResult.RepoURL j ≠ "" ∧
  (((ScanResult.Status j = "pending" ∨ ScanResult.Status j = "running") ∧
    untouched j)
   ∨ (ScanResult.Status j = "failed" ∧
      (∃ err, ScanResult.Error j ∈ failure_messages err) ∧
      ScanResult.Secrets j = [] ∧ ScanResult.TotalSecrets j = 0%Z ∧
      ScanResult.Verified j = 0%Z ∧ ScanResult.Unverified j = 0%Z)
   ∨ (ScanResult.Status j = "completed" ∧ ScanResult.Error j = "" ∧
      counted j)).

(** A goroutine that has returned after handing a request to the
    webhook client: its URL is not empty and parses. *)
Definition notified (url_parses : string → bool) (g : goroutine) : bool :=
  match g_pc g with
  | Returned =>
      negb (String.eqb (ScanRequest.WebhookURL (g_req g)) "")
      && url_parses (ScanRequest.WebhookURL (g_req g))
  | _ => false
  end.

(** The header of a webhook request, as the three calls of
    [Header.Set] leave it. *)
Definition webhook_header : list (string * string) :=
  [("X-TruffleHog-Event", "scan.completed");
   ("User-Agent", "TruffleHog-API/1.0");
   ("Content-Type", "application/json")].

(** ** [Server.Start]: the routes *)

(** The handler of [/health]: no [Content-Type] is set, so the one
    [net/http] detects for the body is sent. *)
Definition healthHandler (r : HttpRequest) (s : Server)
  : ResponseWriter * Server :=
  ({| rw_code := StatusOK;
      rw_ContentType := "text/plain; charset=utf-8";
      rw_body := Json (JObject [("status", JString "healthy")]) |}, s).

Inductive route : Type :=
  | route_scan
  | route_status
  | route_scans
  | route_health.

(** The patterns registered with [mux.HandleFunc]; none ends in a
    slash, so each matches its own path only. *)
Definition mux (path : string) : option route :=
  if decide (path = "/api/v1/scan") then Some route_scan
  else if decide (path = "/api/v1/scan/status") then Some route_status
  else if decide (path = "/api/v1/scans") then Some route_scans
  else if decide (path = "/health") then Some route_health
  else None.

(** Serving one request through the mux.  For a path without a route
    no handler of the server runs ([None]: the mux answers on its own). *)
Definition ServeHTTP (range : gmap string nat → list (string * nat))
    (uuid now : string) (path : string) (r : HttpRequest) (s : Server)
  : option ResponseWriter * Server * option goroutine :=
  match mux path with
  | Some route_scan =>
      let '(rw, s', g) := HandleScan uuid now r s in (Some rw, s', g)
  | Some route_status =>
      let '(rw, s') := HandleGetScan r s in (Some rw, s', None)
  | Some route_scans =>
      let '(rw, s') := HandleListScans range r s in (Some rw, s', None)
  | Some route_health =>
      let '(rw, s') := healthHandler r s in (Some rw, s', None)
  | None => (None, s, None)
  end.

(** The request [sendWebhook] builds for a URL. *)
Definition webhook_request (url : string) : Request :=
  {| req_Method := "POST"; req_URL := url; req_Header := webhook_header;
     req_Body := None; req_ctx := Some {| ctx_name := "background" |} |}.

(** ** The webhook receiver of the examples (lines 497-626 of the
    server file): the secrets grouped by type *)

Module webhook_server.

(** What the handler reads of an element of [scan_result.secrets]. *)
Record secret : Type := {
  detector_type : string;
  verified : bool;
}.

(** The properties every object inherits from [Object.prototype]. *)
Definition Object_prototype : list string :=
  ["constructor"; "__defineGetter__"; "__defineSetter__"; "hasOwnProperty";
   "__lookupGetter__"; "__lookupSetter__"; "isPrototypeOf";
   "propertyIsEnumerable"; "toString"; "valueOf"; "__proto__";
   "toLocaleString"].

(** The body of the [forEach] of lines 541-550, on the own properties of
    [byType]; a counter is a JavaScript number that only ever holds a
    small natural.  For a type that names an inherited property the
    test [!byType[type]] reads the inherited value and the code then
    writes to a shared object: that is [None], outside the model. *)
Definition count_secret (byType : option (gmap string (Z * Z))) (s : secret)
  : option (gmap string (Z * Z)) :=
  m ← byType;
  if decide (detector_type s ∈ Object_prototype) then None
  else
    let m :=
      match m !! detector_type s with
      | Some _ => m
      | None => <[detector_type s := (0, 0)%Z]> m
      end in
    if verified s then
      Some (alter (λ c, (c.1 + 1, c.2)%Z) (detector_type s) m)
    else
      Some (alter (λ c, (c.1, c.2 + 1)%Z) (detector_type s) m).

Definition byType (secrets : list secret) : option (gmap string (Z * Z)) :=
  foldl count_secret (Some ∅) secrets.

(** The element the handler sees for a secret the server serializes. *)
Definition received (x : SecretResult.t) : secret :=
  {| detector_type := SecretResult.DetectorType x;
     verified := SecretResult.Verified x |}.

(** The number of secrets of type [t] whose [verified] is [b]. *)
Definition count_of (b : bool) (t : string) (secrets : list secret) : Z :=
  Z.of_nat (List.length
              (filter (λ s, detector_type s = t ∧ verified s = b) secrets)).

End webhook_server.


(** The sample job on the point of being completed. *)
Definition running_world : World :=
  next always_parses "t1" None [] 0
    (next always_parses "t1" None [] 0
       (next always_parses "t1" None [] 0
          (submit "job-1" "t0" sample_post (initial ok_network)))).

(** * Properties *)

Section string_facts.

Lemma length_app_string (a b : string) :
  String.length (a ++ b) = (String.length a + String.length b)%nat.
Proof. induction a as [|c a IH]; simpl; [done | by rewrite IH]. Qed.

Lemma substring_0_length (n : nat) (s : string) :
  (n ≤ String.length s)%nat → String.length (substring 0 n s) = n.
Proof.
  revert s. induction n as [|n IH]; intros [|c s] Hn; simpl in *; try lia; try done.
  rewrite IH; [done | lia].
Qed.

Lemma prefix_length (a b : string) :
  String.prefix a b = true → (String.length a ≤ String.length b)%nat.
Proof.
  revert b. induction a as [|c a IH]; intros [|d b]; simpl; try lia; try done.
  destruct (ascii_dec c d); [|done]. intros H. apply IH in H. lia.
Qed.

Lemma Contains_length (s sub : string) :
  Contains s sub = true → (String.length sub ≤ String.length s)%nat.
Proof.
  induction s as [|c s IH]; intros H.
  - destruct sub; simpl in *; [lia | done].
  - destruct (String.prefix sub (String c s)) eqn:Hp.
    + by apply prefix_length in Hp.
    + cbn [Contains] in H. rewrite Hp in H. apply IH in H. simpl. lia.
Qed.

End string_facts.

Section matcher_facts.

Lemma take_class_spec cls n s m r :
  take_class cls n s = Some (m, r) →
  s = m ++ r ∧ String.length m = n ∧ string_forallb cls m = true.
Proof.
  revert s m r. induction n as [|n IH]; intros s m r; simpl.
  - intros [= <- <-]. done.
  - destruct s as [|c s]; [done|].
    destruct (cls c) eqn:Hc; [|done].
    destruct (take_class cls n s) as [[m' r']|] eqn:Ht; simpl; [|done].
    intros [= <- <-]. destruct (IH _ _ _ Ht) as (-> & <- & Hall).
    simpl. by rewrite Hc, Hall.
Qed.

Lemma match_Rep cls n ps prev s x r :
  match_pieces (Rep cls n :: ps) prev s = Some (x, r) →
  ∃ m r1 m', take_class cls n s = Some (m, r1) ∧
             match_pieces ps (last_byte prev m) r1 = Some (m', r) ∧
             x = m ++ m'.
Proof.
  simpl. destruct (take_class cls n s) as [[m r1]|] eqn:Ht; simpl; [|done].
  destruct (match_pieces ps (last_byte prev m) r1) as [[m' r']|] eqn:Hm;
    simpl; [|done].
  intros [= <- <-]. by exists m, r1, m'.
Qed.

Lemma match_Lit c ps prev s x r :
  match_pieces (Lit c :: ps) prev s = Some (x, r) →
  ∃ s' m', s = String c s' ∧ match_pieces ps (Some c) s' = Some (m', r) ∧
           x = String c m'.
Proof.
  simpl. destruct s as [|c' s']; [done|].
  destruct (Ascii.eqb_spec c c') as [<-|]; [|done].
  destruct (match_pieces ps (Some c) s') as [[m' r']|] eqn:Hm; simpl; [|done].
  intros [= <- <-]. by exists s', m'.
Qed.

Lemma match_Bnd ps prev s x r :
  match_pieces (Bnd :: ps) prev s = Some (x, r) →
  at_boundary prev s = true ∧ match_pieces ps prev s = Some (x, r).
Proof. simpl. destruct (at_boundary prev s); done. Qed.

Lemma match_nil prev s x r :
  match_pieces [] prev s = Some (x, r) → x = EmptyString ∧ r = s.
Proof. simpl. by intros [= <- <-]. Qed.

End matcher_facts.

Section keyPat_facts.

Import exa.

Lemma keyPat_group_is_uuid prev s g r :
  match_pieces (re_grp keyPat) prev s = Some (g, r) → is_uuid g = true.
Proof.
  unfold keyPat, re_grp. intros H.
  apply match_Rep in H as (a & ? & ? & (_ & La & Ha)%take_class_spec & H & ->).
  apply match_Lit in H as (? & ? & _ & H & ->).
  apply match_Rep in H as (b & ? & ? & (_ & Lb & Hb)%take_class_spec & H & ->).
  apply match_Lit in H as (? & ? & _ & H & ->).
  apply match_Rep in H as (c & ? & ? & (_ & Lc & Hc)%take_class_spec & H & ->).
  apply match_Lit in H as (? & ? & _ & H & ->).
  apply match_Rep in H as (d & ? & ? & (_ & Ld & Hd)%take_class_spec & H & ->).
  apply match_Lit in H as (? & ? & _ & H & ->).
  apply match_Rep in H as (e & ? & ? & (_ & Le & He)%take_class_spec & H & ->).
  apply match_nil in H as [-> _].
  explode a La. explode b Lb. explode c Lc. explode d Ld. explode e Le.
  simpl in *. unfold is_uuid. simpl. unfold uuid_byte_ok. simpl.
  repeat match goal with
         | H : _ && _ = true |- _ => apply andb_prop in H as [? H]
         end.
  repeat match goal with H : hex_lower _ = true |- _ => rewrite H; clear H end.
  done.
Qed.

End keyPat_facts.

Section find_all_facts.

Import exa.

Lemma string_app_nil_r (s : string) : s ++ "" = s.
Proof.
  induction s as [|c s IH]; [done|].
  change (String c (s ++ "") = String c s). by rewrite IH.
Qed.

Lemma match_here_inv re prev s sub :
  match_here re prev s = Some sub →
  ∃ m1 r1 g r2 m3 r3,
    match_pieces (re_pre re) prev s = Some (m1, r1) ∧
    match_pieces (re_grp re) (last_byte prev m1) r1 = Some (g, r2) ∧
    match_pieces (re_post re) (last_byte (last_byte prev m1) g) r2
      = Some (m3, r3) ∧
    sub = [m1 ++ g ++ m3; g].
Proof.
  destruct re as [pre grp post]. unfold match_here. simpl.
  destruct (match_pieces pre prev s) as [[m1 r1]|] eqn:H1; simpl; [|done].
  destruct (match_pieces grp (last_byte prev m1) r1)
    as [[g r2]|] eqn:H2; simpl; [|done].
  destruct (match_pieces post (last_byte (last_byte prev m1) g) r2)
    as [[m3 r3]|] eqn:H3; simpl; [|done].
  intros [= <-]. by exists m1, r1, g, r2, m3, r3.
Qed.

Lemma match_here_keyPat prev s sub :
  match_here keyPat prev s = Some sub →
  ∃ tok, sub = [tok; tok] ∧ is_uuid tok = true.
Proof.
  intros (m1 & r1 & g & r2 & m3 & r3 & H1 & H2 & H3 & ->)%match_here_inv.
  apply match_Bnd in H1 as [_ [-> ->]%match_nil].
  apply match_Bnd in H3 as [_ [-> ->]%match_nil].
  exists g. change ("" ++ g ++ "") with (g ++ ""). rewrite string_app_nil_r.
  split; [done|]. by eapply keyPat_group_is_uuid.
Qed.

Lemma find_all_from_Forall (P : list string → Prop) re :
  (∀ prev s sub, match_here re prev s = Some sub → P sub) →
  ∀ s prev skip, Forall P (find_all_from re prev skip s).
Proof.
  intros HP. induction s as [|c s IH]; intros prev skip; simpl.
  - destruct skip; [|done].
    destruct (match_here re prev "") eqn:Hm; [|done].
    apply Forall_cons; split; [by eapply HP | done].
  - destruct skip.
    + destruct (match_here re prev (String c s)) eqn:Hm; [|by apply IH].
      apply Forall_cons; split; [by eapply HP | by apply IH].
    + by apply IH.
Qed.

Lemma FindAll_keyPat_Forall data :
  Forall (λ sub, ∃ tok, sub = [tok; tok] ∧ is_uuid tok = true)
         (FindAllStringSubmatch keyPat data).
Proof. apply find_all_from_Forall. apply match_here_keyPat. Qed.

Lemma matched_literals_uuid data tok :
  tok ∈ matched_literals data → is_uuid tok = true.
Proof.
  unfold matched_literals, literals. rewrite list_elem_of_omap.
  intros (sub & Hin & Hsub).
  pose proof (FindAll_keyPat_Forall data) as HF.
  rewrite Forall_forall in HF. destruct (HF _ Hin) as (t & -> & Hu).
  simpl in Hsub. by injection Hsub as <-.
Qed.

Lemma is_uuid_length tok : is_uuid tok = true → String.length tok = 36%nat.
Proof.
  unfold is_uuid. intros [H _]%andb_prop. by apply Nat.eqb_eq in H.
Qed.

Lemma collect_acc matches (acc : gset string) :
  Forall (λ sub, is_Some (sub !! 1%nat)) matches →
  foldl (λ acc sub, um ← acc; tok ← sub !! 1%nat; Some ({[ tok ]} ∪ um))
        (Some acc) matches
  = Some (list_to_set (literals matches) ∪ acc).
Proof.
  revert acc. induction matches as [|sub matches IH]; intros acc HF.
  - simpl. by rewrite (left_id_L ∅ (∪)).
  - apply Forall_cons in HF as [[tok Htok] HF].
    cbn [foldl]. cbv beta. rewrite Htok. cbn [mbind option_bind].
    rewrite IH by done. f_equal.
    unfold literals. cbn [omap list_omap]. rewrite Htok.
    rewrite list_to_set_cons. set_solver.
Qed.

Lemma collect_keyPat data :
  collect (FindAllStringSubmatch keyPat data)
  = Some (list_to_set (matched_literals data)).
Proof.
  unfold collect. rewrite collect_acc.
  - f_equal. unfold matched_literals. set_solver.
  - eapply Forall_impl; [apply FindAll_keyPat_Forall|].
    intros sub (tok & -> & _). by exists tok.
Qed.

Lemma slice_to_in_bounds tok n :
  (n ≤ String.length tok)%nat → slice_to tok n = Some (substring 0 n tok).
Proof. intros H. unfold slice_to. by rewrite decide_True. Qed.

Lemma result_of_in_bounds dc s ctx verify tok :
  (8 ≤ String.length tok)%nat →
  result_of dc s ctx verify tok = Some (exa_result dc s ctx verify tok).
Proof.
  intros H. unfold result_of, exa_result. rewrite slice_to_in_bounds by done.
  simpl. destruct verify; [|done].
  by destruct (verifyToken ctx _ tok).
Qed.

Lemma mapM_total {A B} (f : A → option B) (g : A → B) (l : list A) :
  Forall (λ x, f x = Some (g x)) l → mapM f l = Some (g <$> l).
Proof.
  intros H. apply mapM_Some_2. induction H; simpl; constructor; done.
Qed.

Section with_range.

Variable range : gset string → list string.
Hypothesis range_perm : ∀ m, range m ≡ₚ elements m.

Lemma FromData_eq dc s ctx verify data :
  FromData range dc s ctx verify data
  = Some (exa_result dc s ctx verify
            <$> range (list_to_set (matched_literals data))).
Proof.
  unfold FromData. rewrite collect_keyPat. simpl.
  apply mapM_total. rewrite Forall_forall. intros tok Htok.
  apply result_of_in_bounds.
  rewrite range_perm in Htok. apply elem_of_elements in Htok.
  apply elem_of_list_to_set in Htok.
  apply matched_literals_uuid, is_uuid_length in Htok. lia.
Qed.

End with_range.

Lemma size_list_to_set_remove_dups (l : list string) :
  size (list_to_set l : gset string) = List.length (remove_dups l).
Proof.
  rewrite <- (size_list_to_set (C:=gset string) (remove_dups l))
    by apply NoDup_remove_dups.
  f_equal. apply set_eq. intros x.
  by rewrite !elem_of_list_to_set, elem_of_remove_dups.
Qed.

Lemma Raw_exa_result dc s ctx verify tok :
  detectors.Raw (exa_result dc s ctx verify tok) = tok.
Proof. unfold exa_result. by destruct verify. Qed.

Lemma Raw_fmap_exa_result dc s ctx verify (l : list string) :
  detectors.Raw <$> (exa_result dc s ctx verify <$> l) = l.
Proof.
  induction l as [|tok l IH]; [done|].
  cbn [fmap list_fmap]. rewrite Raw_exa_result. f_equal. apply IH.
Qed.

Lemma Redacted_exa_result dc s ctx verify tok :
  detectors.Redacted (exa_result dc s ctx verify tok) = redact tok.
Proof. unfold exa_result. by destruct verify. Qed.

End find_all_facts.

(** C2: [verifyToken] returns [(true, nil)] exactly when the endpoint
    answers 200, [(false, nil)] exactly when it answers 401 or 403, and
    [(false, err)] with a non-nil [err] in every other case: another
    status, a transport failure, or a request that could not be built.
    A fault is therefore never reported as a confirmed-invalid secret. *)
Theorem verifyToken_policy (cl : Client) (token : string) :
  (∀ c : Context,
     (exa.verifyToken (Some c) cl token = (true, None)
        ↔ responds cl (exa_request c token) 200) ∧
     (exa.verifyToken (Some c) cl token = (false, None)
        ↔ responds cl (exa_request c token) 401
          ∨ responds cl (exa_request c token) 403) ∧
     (match cl (exa_request c token) with
      | inl err => exa.verifyToken (Some c) cl token = (false, Some err)
      | inr res =>
          StatusCode res ≠ 200%Z → StatusCode res ≠ 401%Z →
          StatusCode res ≠ 403%Z →
          ∃ err, exa.verifyToken (Some c) cl token = (false, Some err)
      end)) ∧
  (∃ err, exa.verifyToken None cl token = (false, Some err)).
Proof.
  split; [|by eexists].
  intros c. unfold exa.verifyToken, responds. simpl.
  fold (exa_request c token).
  destruct (cl (exa_request c token)) as [err|res] eqn:Hcl.
  - split_and!; [| |done].
    + split; [done | by intros (? & ? & _)].
    + split; [done | by intros [(? & ? & _)|(? & ? & _)]].
  - destruct (decide (StatusCode res = 200%Z)) as [E|NE].
    { split_and!.
      - split; [intros _; by exists res | done].
      - split; [done|].
        intros [(r & [= <-] & ?)|(r & [= <-] & ?)]; lia.
      - intros. lia. }
    destruct (decide (StatusCode res = 401%Z ∨ StatusCode res = 403%Z))
      as [E|NE'].
    { split_and!.
      - split; [done | intros (r & [= <-] & ?); lia].
      - split; [|done]. intros _.
        destruct E; [left | right]; by exists res.
      - intros. lia. }
    split_and!.
    + split; [done | intros (r & [= <-] & ?); lia].
    + split; [done|].
      intros [(r & [= <-] & ?)|(r & [= <-] & ?)]; lia.
    + intros. by eexists.
Qed.

Section extraction.

Variable range : gset string → list string.
Hypothesis range_perm : ∀ m, range m ≡ₚ elements m.

(** C3: whatever the order in which the map is visited, [FromData]
    returns, and the literals its results carry are the distinct matched
    literals, each once: the number of results is the number of distinct
    literals, however often each is repeated in the input. *)
Theorem FromData_one_result_per_distinct_literal dc s ctx verify data :
  ∃ results,
    exa.FromData range dc s ctx verify data = Some results ∧
    List.length results = List.length (remove_dups (matched_literals data)) ∧
    detectors.Raw <$> results ≡ₚ remove_dups (matched_literals data).
Proof.
  eexists. split; [by apply FromData_eq|].
  assert (detectors.Raw <$>
            (exa_result dc s ctx verify
               <$> range (list_to_set (matched_literals data)))
          ≡ₚ remove_dups (matched_literals data)) as HP.
  { rewrite Raw_fmap_exa_result, range_perm.
    apply NoDup_Permutation.
    - apply NoDup_elements.
    - apply NoDup_remove_dups.
    - intros x. by rewrite elem_of_elements, elem_of_list_to_set,
        elem_of_remove_dups. }
  split; [|done].
  apply Permutation_length in HP. by rewrite length_fmap in HP.
Qed.

(** C10: every match of [keyPat] is a 36-byte literal of the shape
    8-4-4-4-12, so [token[:8]] is in bounds: [FromData] never panics,
    and the redacted form of each result is the first 8 bytes of its raw
    literal followed by ["..."], a function of the literal alone. *)
Theorem keyPat_redaction_in_bounds dc s ctx verify data :
  Forall (λ sub, ∃ tok, sub = [tok; tok] ∧ is_uuid tok = true ∧
                        String.length tok = 36%nat ∧
                        slice_to tok 8 = Some (substring 0 8 tok))
         (FindAllStringSubmatch exa.keyPat data) ∧
  ∃ results,
    exa.FromData range dc s ctx verify data = Some results ∧
    Forall (λ r, String.length (detectors.Raw r) = 36%nat ∧
                 detectors.Redacted r = redact (detectors.Raw r) ∧
                 String.length (detectors.Redacted r) = 11%nat)
           results.
Proof.
  split.
  - eapply Forall_impl; [apply FindAll_keyPat_Forall|].
    intros sub (tok & -> & Hu). exists tok.
    pose proof (is_uuid_length _ Hu) as Hl.
    split_and!; [done..|]. apply slice_to_in_bounds. lia.
  - eexists. split; [by apply FromData_eq|].
    rewrite Forall_fmap, Forall_forall. intros tok Htok. simpl.
    rewrite Raw_exa_result, Redacted_exa_result.
    rewrite range_perm in Htok.
    apply elem_of_elements, elem_of_list_to_set in Htok.
    apply matched_literals_uuid, is_uuid_length in Htok.
    split_and!; [done..|].
    unfold redact. rewrite length_app_string, substring_0_length by lia. done.
Qed.

End extraction.

Lemma verifyToken_policy_witness :
  ∃ err, exa.verifyToken (Some {| ctx_name := "bg" |})
           (λ _, inr {| StatusCode := 500 |}) sample_key1
         = (false, Some err).
Proof.
  destruct (verifyToken_policy (λ _, inr {| StatusCode := 500 |}) sample_key1)
    as [H _].
  destruct (H {| ctx_name := "bg" |}) as (_ & _ & H3).
  simpl in H3. apply H3; done.
Defined.

Lemma FromData_one_result_per_distinct_literal_witness :
  (∀ m : gset string, elements m ≡ₚ elements m) ∧
  ∃ results,
    exa.FromData elements no_network sample_scanner None false sample_data
      = Some results ∧
    List.length results
      = List.length (remove_dups (matched_literals sample_data)) ∧
    detectors.Raw <$> results ≡ₚ remove_dups (matched_literals sample_data).
Proof.
  split; [done|].
  apply (FromData_one_result_per_distinct_literal elements); done.
Defined.

Lemma keyPat_redaction_in_bounds_witness :
  ∃ results,
    exa.FromData elements no_network sample_scanner None true sample_data
      = Some results ∧
    Forall (λ r, String.length (detectors.Raw r) = 36%nat ∧
                 detectors.Redacted r = redact (detectors.Raw r) ∧
                 String.length (detectors.Redacted r) = 11%nat)
           results.
Proof.
  apply (keyPat_redaction_in_bounds elements); done.
Defined.

Example sample_literals :
  matched_literals sample_data = [sample_key1; sample_key2; sample_key1].
Proof. vm_compute. reflexivity. Qed.

Section consumer_facts.

Lemma drain_fmap sent : drain sent = secret_of <$> sent.
Proof.
  unfold drain.
  enough (∀ acc, foldl (λ secrets result, (secrets ++ [secret_of result])%list)
                   acc sent = (acc ++ (secret_of <$> sent))%list) as H
    by apply (H []).
  induction sent as [|r sent IH]; intros acc; simpl.
  - by rewrite app_nil_r.
  - rewrite IH. by rewrite <- app_assoc.
Qed.

Lemma tally_spec secrets j :
  ScanResult.Verified (tally secrets j)
    = (ScanResult.Verified j + count_verified true secrets)%Z ∧
  ScanResult.Unverified (tally secrets j)
    = (ScanResult.Unverified j + count_verified false secrets)%Z ∧
  ScanResult.ScanID (tally secrets j) = ScanResult.ScanID j ∧
  ScanResult.Status (tally secrets j) = ScanResult.Status j ∧
  ScanResult.TotalSecrets (tally secrets j) = ScanResult.TotalSecrets j ∧
  ScanResult.Secrets (tally secrets j) = ScanResult.Secrets j.
Proof.
  unfold tally, count_verified. revert j.
  induction secrets as [|x secrets IH]; intros j.
  - simpl. split_and!; try done; lia.
  - cbn [foldl]. destruct (IH (if SecretResult.Verified x
                                 then ScanResult.incr_Verified j
                                 else ScanResult.incr_Unverified j))
      as (-> & -> & -> & -> & -> & ->).
    rewrite !filter_cons.
    destruct (SecretResult.Verified x) eqn:Hx; simpl;
      repeat case_decide; try done; simpl; split_and!; try done; lia.
Qed.

Lemma complete_spec now secrets j :
  untouched j →
  ScanResult.Status (complete now secrets j) = "completed" ∧
  ScanResult.ScanID (complete now secrets j) = ScanResult.ScanID j ∧
  ScanResult.Secrets (complete now secrets j) = secrets ∧
  counted (complete now secrets j).
Proof.
  intros (_ & _ & Hv & Hu & _ & _). unfold complete, counted.
  destruct (tally_spec secrets
    (ScanResult.set_TotalSecrets (Z.of_nat (List.length secrets))
       (ScanResult.set_Secrets secrets
          (ScanResult.set_CompletedAt now
             (ScanResult.set_Status "completed" j)))))
    as (-> & -> & -> & -> & -> & ->).
  simpl. rewrite Hv, Hu. split_and!; try done; lia.
Qed.

Lemma count_verified_total l :
  (count_verified true l + count_verified false l)%Z = Z.of_nat (List.length l).
Proof.
  unfold count_verified. induction l as [|x l IH]; [done|].
  rewrite !filter_cons. destruct (SecretResult.Verified x);
    repeat case_decide; try done; simpl; lia.
Qed.

Lemma count_verified_none l :
  Forall (λ x, SecretResult.Verified x = false) l → count_verified true l = 0%Z.
Proof.
  unfold count_verified. induction 1 as [|x l Hx _ IH]; [done|].
  rewrite filter_cons. case_decide; [congruence | done].
Qed.

End consumer_facts.

Section handler_facts.

Lemma HandleGetScan_srv r s : (HandleGetScan r s).2 = s.
Proof.
  unfold HandleGetScan. repeat case_decide; try done.
  destruct (scans s !! Query_scan_id r); [|done].
  by destruct (heap s !! _).
Qed.

Lemma HandleListScans_srv range r s : (HandleListScans range r s).2 = s.
Proof. unfold HandleListScans. by case_decide. Qed.

Lemma HandleScan_cases uuid now r s :
  (HandleScan uuid now r s).1.2 = s ∧ (HandleScan uuid now r s).2 = None ∧
    rw_code (HandleScan uuid now r s).1.1 ≠ StatusAccepted ∧
    (Method r ≠ "POST" ∨ (∃ err, Body r = inl err) ∨
     (∃ req, Body r = inr req ∧ ScanRequest.RepoURL req = ""))
  ∨ ∃ req, Method r = "POST" ∧ Body r = inr req ∧
      ScanRequest.RepoURL req ≠ "" ∧
      HandleScan uuid now r s
      = ({| rw_code := StatusAccepted; rw_ContentType := "application/json";
            rw_body := Json (accepted_body uuid now) |},
         {| heap := (heap s ++ [pending_job uuid now req])%list;
            scans := <[uuid := List.length (heap s)]> (scans s);
            webhookClient := webhookClient s |},
         Some {| g_scanID := uuid; g_req := req; g_pc := AtStart |}).
Proof.
  unfold HandleScan. case_decide as Hm.
  { left. split_and!; try done. by left. }
  destruct (Body r) as [err|req] eqn:Hb.
  { left. split_and!; try done. right. left. by exists err. }
  case_decide as Hu.
  { left. split_and!; try done. right. right. by exists req. }
  right. exists req. split_and!; try done.
Qed.

Lemma with_heap_id s : with_heap (heap s) s = s.
Proof. by destruct s. Qed.

Lemma job_at_Some s id j :
  job_at s id = Some j ↔ ∃ p, scans s !! id = Some p ∧ heap s !! p = Some j.
Proof.
  unfold job_at. destruct (scans s !! id) as [p|]; simpl.
  - split; [by exists p | by intros (? & [= <-] & ?)].
  - split; [done | by intros (? & ? & _)].
Qed.

End handler_facts.

Section invariant.

Variable url_parses : string → bool.
Variable range : gmap string nat → list (string * nat).

Lemma Inv_initial net : Inv (initial net).
Proof.
  split; simpl.
  - intros id p H. by rewrite lookup_empty in H.
  - constructor.
  - intros g H. by apply elem_of_nil in H.
  - intros id p H. by rewrite lookup_empty in H.
  - constructor.
Qed.

Lemma Inv_HandleScan w uuid now r :
  Inv w → scans (srv w) !! uuid = None →
  Inv {| srv := (HandleScan uuid now r (srv w)).1.2;
         goroutines :=
           (goroutines w ++ option_list (HandleScan uuid now r (srv w)).2)%list;
         delivered := delivered w |}.
Proof.
  intros [Hptr Hnd Hpc Hown Hbody] Hfresh.
  destruct (HandleScan_cases uuid now r (srv w))
    as [(-> & -> & _)|(req & _ & _ & _ & ->)].
  { simpl. rewrite app_nil_r. by destruct w. }
  simpl. split; simpl.
  - intros id p. rewrite lookup_insert. case_decide as Hid.
    + subst id. intros [= <-]. exists (pending_job uuid now req).
      split; [|done]. rewrite lookup_app_r by lia.
      by rewrite Nat.sub_diag.
    + intros H. destruct (Hptr _ _ H) as (j & Hj & Hid').
      exists j. split; [|done]. rewrite lookup_app_l; [done|].
      by eapply lookup_lt_Some.
  - rewrite fmap_app. apply NoDup_app. split_and!; [done| |].
    + intros id Hin Hin'. simpl in Hin'.
      apply list_elem_of_singleton in Hin'. subst id.
      apply list_elem_of_fmap in Hin as (g & Hg & Hin).
      destruct (Hpc _ Hin) as (p & j & Hp & _). congruence.
    + simpl. apply NoDup_singleton.
  - intros g [Hg|Hg]%elem_of_app.
    + destruct (Hpc _ Hg) as (p & j & Hp & Hj & Hag).
      exists p, j. split_and!; [|  |done].
      * rewrite lookup_insert_ne; [done|]. congruence.
      * rewrite lookup_app_l; [done|]. by eapply lookup_lt_Some.
    + simpl in Hg. apply list_elem_of_singleton in Hg. subst g. simpl.
      exists (List.length (heap (srv w))), (pending_job uuid now req).
      split_and!.
      * by rewrite lookup_insert_eq.
      * rewrite lookup_app_r by lia. by rewrite Nat.sub_diag.
      * done.
  - intros id p. rewrite lookup_insert. case_decide as Hid.
    + subst id. intros _.
      exists {| g_scanID := uuid; g_req := req; g_pc := AtStart |}.
      split; [|done]. apply elem_of_app. right.
      by apply list_elem_of_singleton.
    + intros H. destruct (Hown _ _ H) as (g & Hg & Hid').
      exists g. split; [|done]. apply elem_of_app. by left.
  - done.
Qed.

(** A goroutine writes through its own pointer only. *)
Lemma Inv_update w i g p c f out :
  Inv w →
  goroutines w !! i = Some g →
  scans (srv w) !! g_scanID g = Some p →
  (∀ j, heap (srv w) !! p = Some j → pc_agrees g p j →
        ScanResult.ScanID (f j) = ScanResult.ScanID j ∧
        pc_agrees (at_pc c g) p (f j)) →
  Forall (λ req, req_Body req = None) out →
  Inv {| srv := with_heap (alter f p (heap (srv w))) (srv w);
         goroutines := <[i := at_pc c g]> (goroutines w);
         delivered := (delivered w ++ out)%list |}.
Proof.
  intros [Hptr Hnd Hpc Hown Hbody] Hi Hp Hf Hout.
  assert (g ∈ goroutines w) as Hg by (by eapply list_elem_of_lookup_2).
  destruct (Hpc _ Hg) as (p' & j & Hp' & Hj & Hag).
  assert (p' = p) as -> by congruence.
  destruct (Hf _ Hj Hag) as [HfID Hfag].
  split; simpl.
  - intros id q Hq. destruct (Hptr _ _ Hq) as (j' & Hj' & Hid).
    destruct (decide (q = p)) as [->|Hne].
    + exists (f j). rewrite list_lookup_alter_eq, Hj. simpl.
      split; [done|]. assert (j' = j) as -> by congruence. congruence.
    + exists j'. by rewrite list_lookup_alter_ne.
  - rewrite list_fmap_insert. simpl. rewrite list_insert_id; [done|].
    by rewrite list_lookup_fmap, Hi.
  - intros g2 Hg2. apply list_elem_of_lookup in Hg2 as [k Hk].
    apply list_lookup_insert_Some in Hk as [(-> & <- & _)|(Hki & Hk)].
    + exists p, (f j). simpl. rewrite list_lookup_alter_eq, Hj. done.
    + assert (g2 ∈ goroutines w) as Hg2 by (by eapply list_elem_of_lookup_2).
      destruct (Hpc _ Hg2) as (p2 & j2 & Hp2 & Hj2 & Hag2).
      exists p2, j2. split_and!; [done| |done].
      rewrite list_lookup_alter_ne; [done|]. intros <-.
      assert (g_scanID g2 = g_scanID g) as Heq.
      { destruct (Hptr _ _ Hp) as (? & ? & <-).
        destruct (Hptr _ _ Hp2) as (? & ? & <-). congruence. }
      apply Hki. eapply NoDup_lookup; [exact Hnd| |].
      * by rewrite list_lookup_fmap, Hi.
      * rewrite list_lookup_fmap, Hk. simpl. by rewrite Heq.
  - intros id q Hq. destruct (Hown _ _ Hq) as (g2 & Hg2 & Hid).
    apply list_elem_of_lookup in Hg2 as [k Hk].
    destruct (decide (k = i)) as [->|Hne].
    + exists (at_pc c g). split.
      * apply list_elem_of_lookup. exists i.
        apply list_lookup_insert_eq. by eapply lookup_lt_Some.
      * simpl. congruence.
    + exists g2. split; [|done]. apply list_elem_of_lookup. exists k.
      by rewrite list_lookup_insert_ne.
  - apply Forall_app. done.
Qed.

End invariant.

Section goroutine_facts.

Variable url_parses : string → bool.
Variable range : gmap string nat → list (string * nat).

Lemma NewRequest_body method url req :
  NewRequest url_parses method url None = (req, None) →
  req_Body req = None ∧ req_Method req = method ∧ req_URL req = url ∧
  req_Header req = [] ∧ url_parses url = true.
Proof.
  unfold NewRequest. destruct (url_parses url); [|done].
  by intros [= <-].
Qed.

Lemma sendWebhook_inv now webhookURL scanID s s' out :
  sendWebhook url_parses now webhookURL scanID s = Some (s', out) →
  s' = s ∧ (List.length out ≤ 1)%nat ∧
  Forall (λ req, req_Body req = None) out.
Proof.
  unfold sendWebhook. case_decide.
  { intros [= <- <-]. split_and!; [done | simpl; lia | done]. }
  destruct (scans s !! scanID) as [p|]; simpl; [|done].
  destruct (heap s !! p) as [j|]; simpl; [|done].
  destruct (NewRequest url_parses "POST" webhookURL None)
    as [req [err|]] eqn:Hreq.
  { intros [= <- <-]. split_and!; [done | simpl; lia | done]. }
  apply NewRequest_body in Hreq as (Hb & _).
  destruct (webhookClient s _); intros [= <- <-];
    (split_and!; [done | simpl; lia |]);
    apply Forall_singleton; done.
Qed.

Lemma updateScanError_alter now scanID msg s p :
  scans s !! scanID = Some p →
  updateScanError now scanID msg s
  = with_heap (alter (λ j, ScanResult.set_CompletedAt now
                             (ScanResult.set_Error msg
                                (ScanResult.set_Status "failed" j)))
                     p (heap s)) s.
Proof. intros H. unfold updateScanError. by rewrite H. Qed.

Lemma untouched_counted j : untouched j → counted j.
Proof.
  intros (_ & Ht & Hv & Hu & Hs & _). unfold counted.
  by rewrite Ht, Hv, Hu, Hs.
Qed.

Lemma untouched_gathered verify j : untouched j → gathered verify j.
Proof.
  intros (_ & _ & _ & _ & Hs & _). unfold gathered. rewrite Hs. constructor.
Qed.

(** The code as it stands closes the channel without sending: the job
    completes with no secrets and all three counters at zero. *)
Lemma complete_as_written now j :
  untouched j →
  ScanResult.Secrets (complete now (drain []) j) = [] ∧
  ScanResult.TotalSecrets (complete now (drain []) j) = 0%Z ∧
  ScanResult.Verified (complete now (drain []) j) = 0%Z ∧
  ScanResult.Unverified (complete now (drain []) j) = 0%Z.
Proof. intros (_ & _ & Hv & Hu & _ & _). simpl. by rewrite Hv, Hu. Qed.

Lemma Inv_performScan w i g now ext sent g' s' out :
  Inv w →
  goroutines w !! i = Some g →
  produced (ScanRequest.Verify (g_req g)) sent →
  performScan_step url_parses now ext sent g (srv w) = Some (g', s', out) →
  Inv {| srv := s'; goroutines := <[i := g']> (goroutines w);
         delivered := (delivered w ++ out)%list |}.
Proof.
  intros HI Hi Hsent Hstep.
  assert (g ∈ goroutines w) as Hg by (by eapply list_elem_of_lookup_2).
  destruct (inv_pc w HI g Hg) as (p & j & Hp & Hj & Hag).
  assert (∀ c, Inv {| srv := srv w; goroutines := <[i := at_pc c g]> (goroutines w);
                      delivered := (delivered w ++ [])%list |}
               ↔ Inv {| srv := with_heap (alter id p (heap (srv w))) (srv w);
                        goroutines := <[i := at_pc c g]> (goroutines w);
                        delivered := (delivered w ++ [])%list |}) as Hid.
  { intros c. by rewrite list_alter_id, with_heap_id. }
  unfold performScan_step in Hstep. unfold pc_agrees in Hag.
  destruct (g_pc g) as [|q|q|q| |] eqn:Hpc.
  - rewrite Hp in Hstep. simpl in Hstep. rewrite Hj in Hstep. simpl in Hstep.
    injection Hstep as <- <- <-.
    apply Inv_update; [done..| |done].
    intros j' Hj' _. assert (j' = j) as -> by congruence.
    split; [done|]. unfold pc_agrees. simpl. by destruct Hag.
  - destruct Hag as (-> & Hst & Hun).
    destruct ext as [err|]; injection Hstep as <- <- <-.
    + erewrite updateScanError_alter by done.
      apply Inv_update; [done..| |done].
      intros j' Hj' _. assert (j' = j) as -> by congruence.
      split; [done|]. unfold pc_agrees. simpl. split_and!.
      * by right.
      * by apply untouched_counted in Hun.
      * by apply (untouched_gathered _ j).
    + apply Hid. apply Inv_update; [done..| |done].
      intros j' Hj' _. assert (j' = j) as -> by congruence.
      split; [done|]. unfold pc_agrees. by simpl.
  - destruct Hag as (-> & Hst & Hun).
    destruct ext as [err|]; injection Hstep as <- <- <-.
    + erewrite updateScanError_alter by done.
      apply Inv_update; [done..| |done].
      intros j' Hj' _. assert (j' = j) as -> by congruence.
      split; [done|]. unfold pc_agrees. simpl. split_and!.
      * by right.
      * by apply untouched_counted in Hun.
      * by apply (untouched_gathered _ j).
    + apply Hid. apply Inv_update; [done..| |done].
      intros j' Hj' _. assert (j' = j) as -> by congruence.
      split; [done|]. unfold pc_agrees. by simpl.
  - destruct Hag as (-> & Hst & Hun).
    injection Hstep as <- <- <-.
    apply Inv_update; [done..| |done].
    intros j' Hj' _. assert (j' = j) as -> by congruence.
    destruct (complete_spec now (drain sent) j Hun) as (Hc1 & Hc2 & Hc3 & Hc4).
    split; [done|]. unfold pc_agrees. simpl. split_and!.
    + by left.
    + done.
    + unfold gathered. rewrite Hc3, drain_fmap. apply Forall_fmap.
      eapply Forall_impl; [exact Hsent|]. intros r Hr. by exists r.
  - destruct (sendWebhook url_parses now _ _ (srv w)) as [[s2 out2]|] eqn:Hsw;
      simpl in Hstep; [|done].
    injection Hstep as <- <- <-.
    apply sendWebhook_inv in Hsw as (-> & _ & Hout).
    rewrite <- (with_heap_id (srv w)) at 1.
    rewrite <- (list_alter_id id (heap (srv w)) p) at 1 by done.
    apply Inv_update; [done..| |done].
    intros j' Hj' _. assert (j' = j) as -> by congruence.
    split; [done|]. unfold pc_agrees. by simpl.
  - done.
Qed.

Lemma Inv_step w e w' : Inv w → step url_parses range w e w' → Inv w'.
Proof.
  intros HI Hstep. destruct Hstep.
  - by apply Inv_HandleScan.
  - rewrite HandleGetScan_srv. by destruct w.
  - rewrite HandleListScans_srv. by destruct w.
  - by eapply Inv_performScan.
Qed.

Lemma Inv_run w tr w' : Inv w → run url_parses range w tr w' → Inv w'.
Proof.
  intros HI Hrun. induction Hrun as [|w tr w' e w'' _ IH Hstep]; [done|].
  eapply Inv_step; [by apply IH | done].
Qed.

Lemma Inv_reachable w : reachable url_parses range w → Inv w.
Proof. intros (net & tr & Hrun). eapply Inv_run; [apply Inv_initial | done]. Qed.

End goroutine_facts.

Section lifecycle.

Variable url_parses : string → bool.
Variable range : gmap string nat → list (string * nat).

(** What one step of a goroutine does to the server: it rewrites the
    record of its own job, along one edge of the state machine. *)
Lemma performScan_step_effect w i g now ext sent g' s' out :
  Inv w →
  goroutines w !! i = Some g →
  performScan_step url_parses now ext sent g (srv w) = Some (g', s', out) →
  ∃ p j f,
    scans (srv w) !! g_scanID g = Some p ∧ heap (srv w) !! p = Some j ∧
    s' = with_heap (alter f p (heap (srv w))) (srv w) ∧
    advances j (f j).
Proof.
  intros HI Hi Hstep.
  assert (g ∈ goroutines w) as Hg by (by eapply list_elem_of_lookup_2).
  destruct (inv_pc w HI g Hg) as (p & j & Hp & Hj & Hag).
  exists p, j.
  assert (srv w = with_heap (alter id p (heap (srv w))) (srv w)) as Hid
    by (by rewrite list_alter_id, with_heap_id).
  unfold performScan_step in Hstep. unfold pc_agrees in Hag.
  destruct (g_pc g) as [|q|q|q| |] eqn:Hpc.
  - rewrite Hp in Hstep. simpl in Hstep. rewrite Hj in Hstep. simpl in Hstep.
    injection Hstep as <- <- <-. eexists. split_and!; [done..|].
    right. left. by destruct Hag.
  - destruct Hag as (-> & Hst & Hun).
    destruct ext as [err|]; injection Hstep as <- <- <-.
    + erewrite updateScanError_alter by done.
      eexists. split_and!; [done..|]. right. right. split; [done|]. by right.
    + exists id. split_and!; [done..|]. by left.
  - destruct Hag as (-> & Hst & Hun).
    destruct ext as [err|]; injection Hstep as <- <- <-.
    + erewrite updateScanError_alter by done.
      eexists. split_and!; [done..|]. right. right. split; [done|]. by right.
    + exists id. split_and!; [done..|]. by left.
  - destruct Hag as (-> & Hst & Hun).
    injection Hstep as <- <- <-.
    eexists. split_and!; [done..|]. right. right. split; [done|].
    left. by destruct (complete_spec now (drain sent) j Hun) as (-> & _).
  - destruct (sendWebhook url_parses now _ _ (srv w)) as [[s2 out2]|] eqn:Hsw;
      simpl in Hstep; [|done].
    injection Hstep as <- <- <-.
    apply sendWebhook_inv in Hsw as (-> & _ & _).
    exists id. split_and!; [done..|]. by left.
  - done.
Qed.

Lemma terminal_not_advancing j j' :
  terminal (ScanResult.Status j) → advances j j' → j' = j.
Proof.
  intros [Ht|Ht] [H|[[H _]|[H _]]]; try done; rewrite Ht in H; done.
Qed.

Lemma step_job w e w' id j :
  Inv w → step url_parses range w e w' →
  job_at (srv w) id = Some j →
  ∃ j', job_at (srv w') id = Some j' ∧ advances j j'.
Proof.
  intros HI Hstep (p & Hp & Hj)%job_at_Some. destruct Hstep; simpl.
  - destruct (HandleScan_cases uuid now r (srv w))
      as [(-> & _)|(req & _ & _ & _ & ->)].
    { exists j. split; [|by left]. apply job_at_Some. eauto. }
    exists j. split; [|by left]. apply job_at_Some. exists p. simpl.
    split.
    + rewrite lookup_insert_ne; [done|]. congruence.
    + rewrite lookup_app_l; [done|]. by eapply lookup_lt_Some.
  - rewrite HandleGetScan_srv. exists j. split; [|by left].
    apply job_at_Some. eauto.
  - rewrite HandleListScans_srv. exists j. split; [|by left].
    apply job_at_Some. eauto.
  - destruct (performScan_step_effect _ _ _ _ _ _ _ _ _ HI H H1)
      as (q & jg & f & Hq & Hjg & -> & Hadv).
    destruct (decide (q = p)) as [->|Hne].
    + assert (jg = j) as -> by congruence.
      exists (f j). split; [|done]. apply job_at_Some. exists p. simpl.
      split; [done|]. by rewrite list_lookup_alter_eq, Hj.
    + exists j. split; [|by left]. apply job_at_Some. exists p. simpl.
      split; [done|]. by rewrite list_lookup_alter_ne.
Qed.

Lemma advances_status_le a j j' :
  status_le a (ScanResult.Status j) → advances j j' →
  status_le a (ScanResult.Status j').
Proof.
  unfold status_le, advances, terminal.
  intros Ha [->|[[H1 H2]|[H1 H2]]]; [done| |]; rewrite H2 || idtac.
  - destruct Ha as [->|[[-> Hb]|[-> Hb]]].
    + rewrite H1. right. left. by eauto.
    + rewrite H1 in Hb. by destruct Hb as [|[|]].
    + rewrite H1 in Hb. by destruct Hb.
  - destruct Ha as [->|[[-> Hb]|[-> Hb]]].
    + rewrite H1. right. right. done.
    + right. left. split; [done|]. by right.
    + rewrite H1 in Hb. by destruct Hb.
Qed.

Lemma run_job w tr w' id j :
  Inv w → run url_parses range w tr w' →
  job_at (srv w) id = Some j →
  ∃ j', job_at (srv w') id = Some j' ∧
        status_le (ScanResult.Status j) (ScanResult.Status j') ∧
        (terminal (ScanResult.Status j) → j' = j).
Proof.
  intros HI Hrun Hj. induction Hrun as [|w tr w' e w'' Hrun IH Hstep].
  - exists j. split_and!; [done | by left | done].
  - destruct (IH HI Hj) as (j1 & Hj1 & Hle & Hfin).
    assert (Inv w') as HI' by (by eapply Inv_run).
    destruct (step_job _ _ _ _ _ HI' Hstep Hj1) as (j2 & Hj2 & Hadv).
    exists j2. split_and!; [done | by eapply advances_status_le |].
    intros Ht. specialize (Hfin Ht). subst j1.
    by eapply terminal_not_advancing.
Qed.

Lemma HandleGetScan_job r s s' id j :
  Query_scan_id r = id →
  job_at s id = Some j → job_at s' id = Some j →
  (HandleGetScan r s').1 = (HandleGetScan r s).1.
Proof.
  intros <- (p & Hp & Hj)%job_at_Some (p' & Hp' & Hj')%job_at_Some.
  unfold HandleGetScan. repeat case_decide; try done.
  by rewrite Hp, Hp', Hj, Hj'.
Qed.

(** C4: along every run of the service the status of a job only moves
    forward in pending, running, completed-or-failed; once it is
    completed or failed the stored record never changes again in any
    field, and every later status query for that identifier is answered
    exactly as before. *)
Theorem terminal_state_is_final w tr w' id j :
  reachable url_parses range w →
  run url_parses range w tr w' →
  job_at (srv w) id = Some j →
  ∃ j', job_at (srv w') id = Some j' ∧
        status_le (ScanResult.Status j) (ScanResult.Status j') ∧
        (terminal (ScanResult.Status j) →
           j' = j ∧
           ∀ r, Query_scan_id r = id →
                (HandleGetScan r (srv w')).1 = (HandleGetScan r (srv w)).1).
Proof.
  intros Hreach Hrun Hj.
  destruct (run_job w tr w' id j (Inv_reachable _ _ _ Hreach) Hrun Hj)
    as (j' & Hj' & Hle & Hfin).
  exists j'. split_and!; [done..|]. intros Ht.
  specialize (Hfin Ht). subst j'. split; [done|].
  intros r Hr. by eapply HandleGetScan_job.
Qed.

End lifecycle.

Section disclosure.

Lemma harvested_exa verify r :
  harvested verify r →
  ∃ dc sc ctx tok, is_uuid tok = true ∧ r = exa_result dc sc ctx verify tok.
Proof.
  intros (rg & dc & sc & ctx & data & results & Hperm & Hfd & Hin).
  rewrite (FromData_eq rg Hperm) in Hfd. injection Hfd as <-.
  apply list_elem_of_fmap in Hin as (tok & -> & Htok).
  exists dc, sc, ctx, tok. split; [|done].
  rewrite Hperm in Htok. apply elem_of_elements, elem_of_list_to_set in Htok.
  by apply matched_literals_uuid in Htok.
Qed.

Lemma harvested_unverified r :
  harvested false r → detectors.Verified r = false.
Proof. by intros (dc & sc & ctx & tok & _ & ->)%harvested_exa. Qed.

Lemma secret_of_Verified r :
  SecretResult.Verified (secret_of r) = detectors.Verified r.
Proof. unfold secret_of. by destruct (detectors.SourceMetadata_ r). Qed.

Lemma secret_of_Raw r : SecretResult.Raw (secret_of r) = "".
Proof. unfold secret_of. by destruct (detectors.SourceMetadata_ r). Qed.

Lemma Marshal_no_raw x :
  SecretResult.Raw x = "" → member "raw" (SecretResult.Marshal x) = None.
Proof.
  intros Hraw. unfold SecretResult.Marshal. rewrite Hraw.
  destruct (decide (SecretResult.ExtraData x = ∅)); by vm_compute.
Qed.

Lemma short_not_Contains (str sub : string) :
  (String.length str < String.length sub)%nat → Contains str sub = false.
Proof.
  intros Hlt. destruct (Contains str sub) eqn:Hc; [|done].
  apply Contains_length in Hc. lia.
Qed.

Lemma length_redact tok :
  (8 ≤ String.length tok)%nat → String.length (redact tok) = 11%nat.
Proof.
  intros H. unfold redact. rewrite length_app_string, substring_0_length by done.
  done.
Qed.

Lemma harvested_safe verify r : harvested verify r → safe_secret (secret_of r).
Proof.
  intros Hr. split_and!.
  - apply secret_of_Raw.
  - apply Marshal_no_raw, secret_of_Raw.
  - exists verify, r. split_and!; [done..|].
    destruct (harvested_exa _ _ Hr) as (dc & sc & ctx & tok & Hu & ->).
    apply is_uuid_length in Hu.
    rewrite Raw_exa_result. unfold secret_of, disclosed.
    assert (detectors.SourceMetadata_ (exa_result dc sc ctx verify tok) = None)
      as -> by (unfold exa_result; by destruct verify).
    assert (detectors.ExtraData (exa_result dc sc ctx verify tok) = ∅)
      as Hex by (unfold exa_result; by destruct verify).
    assert (detectors.DetectorType (exa_result dc sc ctx verify tok)
            = detectorspb.DetectorType_Exa)
      as Hty by (unfold exa_result; by destruct verify).
    assert (detectors.DetectorName (exa_result dc sc ctx verify tok) = "")
      as Hnm by (unfold exa_result; by destruct verify).
    cbn [SecretResult.DetectorType SecretResult.DetectorName SecretResult.Raw
         SecretResult.Redacted SecretResult.SourceName SecretResult.SourceType
         SecretResult.ExtraData].
    rewrite Hex, Hty, Hnm, Redacted_exa_result, map_to_list_empty.
    cbn [mbind list_bind app detectorspb.String_].
    repeat (apply Forall_cons; split;
            [apply short_not_Contains;
             rewrite ?length_redact by lia; rewrite Hu; simpl; lia|]).
    constructor.
Qed.

End disclosure.

Section outcomes.

Variable url_parses : string → bool.
Variable range : gmap string nat → list (string * nat).
Hypothesis range_perm : ∀ m, range m ≡ₚ map_to_list m.

Lemma job_owner w id j :
  Inv w → job_at (srv w) id = Some j →
  ∃ g, g ∈ goroutines w ∧ g_scanID g = id ∧
       ∃ p, scans (srv w) !! id = Some p ∧ pc_agrees g p j.
Proof.
  intros HI (p & Hp & Hj)%job_at_Some.
  destruct (inv_owner w HI _ _ Hp) as (g & Hg & <-).
  destruct (inv_pc w HI g Hg) as (p' & j' & Hp' & Hj' & Hag).
  exists g. split_and!; [done..|]. exists p.
  assert (p' = p) as -> by congruence.
  assert (j' = j) as -> by congruence. done.
Qed.

Lemma job_safe w id j : Inv w → job_at (srv w) id = Some j → safe_job j.
Proof.
  intros HI Hj.
  destruct (job_owner w id j HI Hj) as (g & _ & _ & p & _ & Hag).
  unfold pc_agrees in Hag. unfold safe_job.
  destruct (g_pc g).
  1: destruct Hag as (_ & _ & _ & _ & _ & -> & _); constructor.
  1-3: destruct Hag as (_ & _ & _ & _ & _ & _ & -> & _); constructor.
  all: destruct Hag as (_ & _ & Hga); eapply Forall_impl; [exact Hga|];
    intros x (r & Hr & ->); by eapply harvested_safe.
Qed.

(** C6: a completed job has [total_secrets] equal to the number of its
    results and its [verified] and [unverified] counters count the
    results with and without a positive verification, so they add up to
    [total_secrets]; and when the request of the job had [verify] unset,
    no result is verified and the [verified] counter is 0. *)
Theorem completed_job_counts w id j :
  reachable url_parses range w →
  job_at (srv w) id = Some j →
  ScanResult.Status j = "completed" →
  ScanResult.TotalSecrets j = Z.of_nat (List.length (ScanResult.Secrets j)) ∧
  ScanResult.Verified j = count_verified true (ScanResult.Secrets j) ∧
  ScanResult.Unverified j = count_verified false (ScanResult.Secrets j) ∧
  (ScanResult.Verified j + ScanResult.Unverified j
   = ScanResult.TotalSecrets j)%Z ∧
  ∃ g, g ∈ goroutines w ∧ g_scanID g = id ∧
       (ScanRequest.Verify (g_req g) = false →
          Forall (λ x, SecretResult.Verified x = false) (ScanResult.Secrets j)
          ∧ ScanResult.Verified j = 0%Z).
Proof.
  intros HI%Inv_reachable Hj Hst.
  destruct (job_owner w id j HI Hj) as (g & Hg & Hid & p & _ & Hag).
  unfold pc_agrees in Hag.
  assert (terminal (ScanResult.Status j) ∧ counted j ∧
          gathered (ScanRequest.Verify (g_req g)) j) as (_ & Hc & Hga).
  { destruct (g_pc g); try done.
    1: destruct Hag as [Hag _]; rewrite Hst in Hag; done.
    all: destruct Hag as (_ & Hag & _); rewrite Hst in Hag; done. }
  destruct Hc as (Ht & Hv & Hu).
  split_and!; [done..| |].
  - rewrite Hv, Hu, Ht. apply count_verified_total.
  - exists g. split_and!; [done..|]. intros Hvf. rewrite Hvf in Hga.
    assert (Forall (λ x, SecretResult.Verified x = false)
                   (ScanResult.Secrets j)) as Hall.
    { eapply Forall_impl; [exact Hga|]. intros x (r & Hr & ->).
      rewrite secret_of_Verified. by apply harvested_unverified. }
    split; [done|]. rewrite Hv. by apply count_verified_none.
Qed.

Lemma omap_lookup_fmap {A B} (f : A → B) (h : list A) (l : list nat) :
  omap (λ p, f <$> h !! p) l = f <$> omap (λ p, h !! p) l.
Proof.
  induction l as [|p l IH]; [done|].
  cbn [omap list_omap]. destruct (h !! p); simpl; by rewrite IH.
Qed.

Lemma foldl_snoc_snd {A B} (l : list (A * B)) :
  foldl (λ acc kv, (acc ++ [kv.2])%list) [] l = snd <$> l.
Proof.
  enough (∀ acc, foldl (λ acc kv, (acc ++ [kv.2])%list) acc l
                 = (acc ++ (snd <$> l))%list) as H by apply (H []).
  induction l as [|kv l IH]; intros acc; simpl.
  - by rewrite app_nil_r.
  - rewrite IH. by rewrite <- app_assoc.
Qed.

Lemma HandleListScans_GET r s :
  Method r = "GET" →
  HandleListScans range r s
  = ({| rw_code := StatusOK; rw_ContentType := "application/json";
        rw_body :=
          Json (JObject
                  [("scans", JArray (ScanResult.Marshal <$> listed range s));
                   ("total",
                    JNumber (Z.of_nat (List.length (range (scans s)))))]) |},
     s).
Proof.
  intros Hm. unfold HandleListScans. rewrite decide_False by (by intros []).
  rewrite foldl_snoc_snd, omap_lookup_fmap, length_fmap. done.
Qed.

Lemma listed_job s j :
  j ∈ listed range s ↔ ∃ id, job_at s id = Some j.
Proof.
  unfold listed. rewrite list_elem_of_omap. split.
  - intros (p & Hp & Hj). apply list_elem_of_fmap in Hp as ([id p'] & -> & Hin).
    rewrite range_perm in Hin. apply elem_of_map_to_list in Hin.
    exists id. apply job_at_Some. by exists p'.
  - intros (id & (p & Hp & Hj)%job_at_Some). exists p. split; [|done].
    apply list_elem_of_fmap. exists (id, p). split; [done|].
    rewrite range_perm. by apply elem_of_map_to_list.
Qed.

Lemma length_listed w :
  Inv w →
  List.length (listed range (srv w)) = List.length (range (scans (srv w))).
Proof.
  intros HI. unfold listed. rewrite <- (length_fmap snd (range _)).
  assert (Forall (λ p, is_Some (heap (srv w) !! p))
                 (snd <$> range (scans (srv w)))) as HF.
  { rewrite Forall_fmap, Forall_forall. intros [id p] Hin. simpl.
    rewrite range_perm in Hin. apply elem_of_map_to_list in Hin.
    destruct (inv_ptr w HI _ _ Hin) as (j & -> & _). by eexists. }
  induction HF as [|p l [j Hj] _ IH]; [done|].
  cbn [omap list_omap]. rewrite Hj. simpl. by rewrite IH.
Qed.

(** C7: no payload of the service carries a raw secret.  In every
    reachable state the body of a status response or of a list response
    is a fixed error message or the serialization of stored jobs, and
    every secret of a stored job has an empty [Raw] field, is serialized
    without a ["raw"] member, and holds no string that contains the
    matched literal (its redacted form is the first 8 of the 36 bytes);
    that covers the record the webhook envelope is built from, and the
    requests handed to the webhook client carry no body at all. *)
Theorem raw_never_leaves w :
  reachable url_parses range w →
  (∀ id j, job_at (srv w) id = Some j → safe_job j) ∧
  (∀ r, match rw_body (HandleGetScan r (srv w)).1 with
        | Json doc =>
            ∃ j, doc = ScanResult.Marshal j ∧
                 job_at (srv w) (Query_scan_id r) = Some j ∧ safe_job j
        | Text msg => msg ∈ read_errors
        end) ∧
  (∀ r, match rw_body (HandleListScans range r (srv w)).1 with
        | Json doc =>
            ∃ js, member "scans" doc = Some (JArray (ScanResult.Marshal <$> js))
                  ∧ Forall safe_job js
        | Text msg => msg ∈ read_errors
        end) ∧
  Forall (λ req, req_Body req = None) (delivered w).
Proof.
  intros HI%Inv_reachable. split_and!.
  - intros id j Hj. by eapply job_safe.
  - intros r. unfold HandleGetScan.
    case_decide; [simpl; unfold read_errors; set_solver|].
    case_decide; [simpl; unfold read_errors; set_solver|].
    destruct (scans (srv w) !! Query_scan_id r) as [p|] eqn:Hp;
      [|simpl; unfold read_errors; set_solver].
    destruct (inv_ptr w HI _ _ Hp) as (j & Hj & _). rewrite Hj. simpl.
    assert (job_at (srv w) (Query_scan_id r) = Some j) as Hjob
      by (apply job_at_Some; eauto).
    exists j. split_and!; [done..|]. by eapply job_safe.
  - intros r. destruct (decide (Method r = "GET")) as [Hm|Hm].
    + rewrite HandleListScans_GET by done. simpl.
      exists (listed range (srv w)). split; [done|].
      rewrite Forall_forall. intros j (id & Hj)%listed_job.
      by eapply job_safe.
    + unfold HandleListScans. rewrite decide_True by done. simpl.
      unfold read_errors. set_solver.
  - apply (inv_body w HI).
Qed.

End outcomes.

Section submission.

Variable url_parses : string → bool.
Variable range : gmap string nat → list (string * nat).





End submission.

Section reads.

Variable url_parses : string → bool.
Variable range : gmap string nat → list (string * nat).
Hypothesis range_perm : ∀ m, range m ≡ₚ map_to_list m.

Lemma length_range (m : gmap string nat) : List.length (range m) = size m.
Proof. by rewrite range_perm, length_map_to_list. Qed.

(** C8, amended: a status query for a non-empty identifier that is not
    in the registry is answered 404 and changes nothing (an empty or
    absent identifier is answered 400, also without a change); a list
    query on an empty registry returns an empty sequence and total 0; in
    every reachable state it returns the records of exactly the known
    jobs, and the total is their number, the size of the registry. *)
Theorem GetStatus_unknown_and_List r :
  Method r = "GET" →
  (∀ s, Query_scan_id r ≠ "" → scans s !! Query_scan_id r = None →
        HandleGetScan r s = (http_Error "Scan not found" StatusNotFound, s)) ∧
  (∀ s, Query_scan_id r = "" →
        HandleGetScan r s
        = (http_Error "scan_id parameter is required" StatusBadRequest, s)) ∧
  (∀ s, scans s = ∅ →
        HandleListScans range r s
        = ({| rw_code := StatusOK; rw_ContentType := "application/json";
              rw_body := Json (JObject [("scans", JArray []);
                                        ("total", JNumber 0)]) |}, s)) ∧
  (∀ w, reachable url_parses range w →
        ∃ js,
          HandleListScans range r (srv w)
          = ({| rw_code := StatusOK; rw_ContentType := "application/json";
                rw_body :=
                  Json (JObject
                          [("scans", JArray (ScanResult.Marshal <$> js));
                           ("total", JNumber (Z.of_nat (List.length js)))]) |},
             srv w) ∧
          List.length js = size (scans (srv w)) ∧
          ∀ j, j ∈ js ↔ ∃ id, job_at (srv w) id = Some j).
Proof.
  intros Hm. split_and!.
  - intros s Hid Hnone. unfold HandleGetScan.
    rewrite decide_False by (by intros []).
    rewrite decide_False by done. by rewrite Hnone.
  - intros s Hid. unfold HandleGetScan.
    rewrite decide_False by (by intros []).
    by rewrite decide_True.
  - intros s Hs. rewrite HandleListScans_GET by done.
    unfold listed. rewrite Hs.
    assert (range (∅ : gmap string nat) = []) as ->.
    { apply Permutation_nil_r. by rewrite range_perm, map_to_list_empty. }
    done.
  - intros w HI%Inv_reachable. exists (listed range (srv w)).
    rewrite HandleListScans_GET by done.
    rewrite (length_listed range range_perm w HI).
    split_and!; [done| |].
    + by rewrite length_range.
    + intros j. by apply listed_job.
Qed.

(** C9: with an empty URL [sendWebhook] does nothing; with any URL,
    whatever the client answers (a transport error, any status) and
    whether or not the request can be built, it returns the server it
    was given, unchanged in every field of every job, having handed at
    most one request to the client; the goroutine then returns and takes
    no further step, so nothing is sent again. *)
Theorem sendWebhook_fire_and_forget now scanID s :
  sendWebhook url_parses now "" scanID s = Some (s, []) ∧
  ∀ webhookURL j,
    job_at s scanID = Some j →
    (∃ out,
       sendWebhook url_parses now webhookURL scanID s = Some (s, out) ∧
       job_at s scanID = Some j ∧
       (List.length out ≤ 1)%nat ∧
       (url_parses webhookURL = false → out = []) ∧
       (webhookURL = "" → out = [])) ∧
    (∀ g ext sent,
       g_pc g = AtWebhook → g_scanID g = scanID →
       ScanRequest.WebhookURL (g_req g) = webhookURL →
       ∃ out,
         performScan_step url_parses now ext sent g s
           = Some (at_pc Returned g, s, out) ∧
         performScan_step url_parses now ext sent (at_pc Returned g) s = None).
Proof.
  split; [done|].
  intros webhookURL j Hjob. pose proof Hjob as (p & Hp & Hj)%job_at_Some.
  assert (∃ out,
     sendWebhook url_parses now webhookURL scanID s = Some (s, out) ∧
     job_at s scanID = Some j ∧
     (List.length out ≤ 1)%nat ∧
     (url_parses webhookURL = false → out = []) ∧
     (webhookURL = "" → out = [])) as Hsend.
  { unfold sendWebhook. case_decide as Hurl.
    { exists []. split_and!; [done.. | simpl; lia | done | done]. }
    rewrite Hp. simpl. rewrite Hj. simpl. unfold NewRequest.
    destruct (url_parses webhookURL).
    - destruct (webhookClient s _); eexists;
        (split_and!; [done.. | simpl; lia | done | done]).
    - exists []. split_and!; [done.. | simpl; lia | done | done]. }
  split; [done|].
  intros g ext sent Hpc Hid Hurl. destruct Hsend as (out & Hsw & _).
  exists out. unfold performScan_step. rewrite Hpc, Hid, Hurl, Hsw. done.
Qed.

End reads.

Section scheduling.

Variable url_parses : string → bool.
Variable range : gmap string nat → list (string * nat).

Lemma reachable_run w tr w' :
  reachable url_parses range w → run url_parses range w tr w' →
  reachable url_parses range w'.
Proof.
  intros (net & tr0 & H0) Hrun. exists net.
  induction Hrun as [|w tr w' e w'' _ IH Hstep]; [by exists tr0|].
  destruct (IH H0) as [tr1 H1]. exists (tr1 ++ [e])%list. by econstructor.
Qed.

Lemma run_one w e w' :
  step url_parses range w e w' → run url_parses range w [e] w'.
Proof. intros H. apply (run_snoc _ _ w [] w e w'); [constructor | done]. Qed.

Lemma reachable_submit uuid now r w :
  reachable url_parses range w → scans (srv w) !! uuid = None →
  reachable url_parses range (submit uuid now r w).
Proof.
  intros Hw Hfresh. eapply reachable_run; [done|].
  apply run_one. by apply step_HandleScan.
Qed.

Lemma reachable_next now ext sent i g w :
  reachable url_parses range w →
  goroutines w !! i = Some g →
  produced (ScanRequest.Verify (g_req g)) sent →
  reachable url_parses range (next url_parses now ext sent i w).
Proof.
  intros Hw Hg Hsent. unfold next. rewrite Hg. simpl.
  destruct (performScan_step url_parses now ext sent g (srv w))
    as [[[g' s'] out]|] eqn:Hstep; [|done].
  eapply reachable_run; [done|]. apply run_one.
  by eapply step_performScan.
Qed.

Lemma FromData_produced rg dc sc ctx verify data :
  (∀ m, rg m ≡ₚ elements m) →
  produced verify (default [] (exa.FromData rg dc sc ctx verify data)).
Proof.
  intros Hperm. unfold produced. rewrite Forall_forall. intros r Hr.
  exists rg, dc, sc, ctx, data, (default [] (exa.FromData rg dc sc ctx verify data)).
  split_and!; [done| |done].
  by rewrite (FromData_eq rg Hperm).
Qed.

End scheduling.

Section sample_run.

Lemma sample_world_reachable : reachable always_parses map_to_list sample_world.
Proof.
  unfold sample_world.
  eapply (reachable_next _ _ _ _ _ _ (sample_goroutine (AtCollect 0)));
    [|by vm_compute|
     apply (FromData_produced elements no_network sample_scanner None false
              sample_data); done].
  eapply (reachable_next _ _ _ _ _ _ (sample_goroutine (AtSetSourceUnit 0)));
    [|by vm_compute|constructor].
  eapply (reachable_next _ _ _ _ _ _ (sample_goroutine (AtInit 0)));
    [|by vm_compute|constructor].
  eapply (reachable_next _ _ _ _ _ _ (sample_goroutine AtStart));
    [|by vm_compute|constructor].
  apply reachable_submit; [|by vm_compute].
  exists ok_network, []. constructor.
Qed.

Lemma sample_final_run :
  ∃ tr, run always_parses map_to_list sample_world tr final_world.
Proof.
  exists [Run 0 [sample_webhook_request]]. apply run_one.
  assert (final_world
          = {| srv := srv sample_world;
               goroutines := <[0%nat := sample_goroutine Returned]>
                               (goroutines sample_world);
               delivered := (delivered sample_world
                             ++ [sample_webhook_request])%list |}) as ->
    by (by vm_compute).
  apply (step_performScan always_parses map_to_list sample_world 0
           (sample_goroutine AtWebhook) "t2" None []
           (sample_goroutine Returned) (srv sample_world)
           [sample_webhook_request]);
    [by vm_compute | constructor | by vm_compute].
Qed.

Lemma sample_job_at : job_at (srv sample_world) "job-1" = Some sample_job.
Proof. by vm_compute. Qed.

Example sample_job_fields :
  ScanResult.Status sample_job = "completed" ∧
  ScanResult.TotalSecrets sample_job = 2%Z ∧
  ScanResult.Verified sample_job = 0%Z ∧
  ScanResult.Unverified sample_job = 2%Z ∧
  SecretResult.Redacted <$> ScanResult.Secrets sample_job
    = ["12345678..."; "aaaaaaaa..."] ∧
  delivered final_world = [sample_webhook_request].
Proof. by vm_compute. Qed.

(** The path through [updateScanError]. *)
Example sample_failure :
  job_at (srv (next always_parses "t1" (Some "no route to host") [] 0
                 (next always_parses "t1" None [] 0
                    (submit "job-1" "t0" sample_post (initial ok_network)))))
         "job-1"
  = Some (ScanResult.set_CompletedAt "t1"
            (ScanResult.set_Error
               "Failed to initialize git source: no route to host"
               (ScanResult.set_Status "failed"
                  (pending_job "job-1" "t0" sample_request)))).
Proof. by vm_compute. Qed.

End sample_run.

(** C1: for the completed job of the sample run, whose webhook URL is
    not empty, [sendWebhook] hands the client one POST to that URL with
    the three headers, but the request has no body: the envelope that
    was marshalled is not sent. *)
Theorem webhook_request_has_no_body :
  sendWebhook always_parses "t2" "https://hooks.example/scan" "job-1"
              (srv sample_world)
    = Some (srv sample_world, [sample_webhook_request]) ∧
  req_Method sample_webhook_request = "POST" ∧
  req_URL sample_webhook_request = "https://hooks.example/scan" ∧
  Header_Get "Content-Type" sample_webhook_request = Some "application/json" ∧
  Header_Get "User-Agent" sample_webhook_request = Some "TruffleHog-API/1.0" ∧
  Header_Get "X-TruffleHog-Event" sample_webhook_request
    = Some "scan.completed" ∧
  member "event" sample_envelope = Some (JString "scan.completed") ∧
  member "scan_result" sample_envelope = Some (ScanResult.Marshal sample_job) ∧
  member "timestamp" sample_envelope = Some (JString "t2") ∧
  req_Body sample_webhook_request = None ∧
  req_Body sample_webhook_request ≠ Some sample_envelope.
Proof. split_and!; by vm_compute. Qed.

(** C8, as stated, fails: the empty identifier is not in the registry
    of a fresh server, and the status query for it is answered 400, not
    404. *)
Lemma GetStatus_empty_identifier_is_400 :
  Method (sample_get "") = "GET" ∧
  scans (srv (initial ok_network)) !! Query_scan_id (sample_get "") = None ∧
  rw_code (HandleGetScan (sample_get "") (srv (initial ok_network))).1
    = StatusBadRequest ∧
  rw_code (HandleGetScan (sample_get "") (srv (initial ok_network))).1
    ≠ StatusNotFound.
Proof. split_and!; by vm_compute. Qed.

Lemma terminal_state_is_final_witness :
  ∃ j', job_at (srv final_world) "job-1" = Some j' ∧
        status_le (ScanResult.Status sample_job) (ScanResult.Status j') ∧
        j' = sample_job ∧
        (HandleGetScan (sample_get "job-1") (srv final_world)).1
        = (HandleGetScan (sample_get "job-1") (srv sample_world)).1.
Proof.
  destruct sample_final_run as [tr Hrun].
  destruct (terminal_state_is_final always_parses map_to_list
              sample_world tr final_world "job-1" sample_job
              sample_world_reachable Hrun sample_job_at)
    as (j' & H1 & H2 & H3).
  destruct H3 as [H4 H5]; [left; by vm_compute|].
  exists j'. split_and!; [exact H1 | exact H2 | exact H4 |].
  apply H5. reflexivity.
Defined.

Lemma completed_job_counts_witness :
  ScanResult.TotalSecrets sample_job
    = Z.of_nat (List.length (ScanResult.Secrets sample_job)) ∧
  ScanResult.Verified sample_job
    = count_verified true (ScanResult.Secrets sample_job) ∧
  ScanResult.Unverified sample_job
    = count_verified false (ScanResult.Secrets sample_job) ∧
  (ScanResult.Verified sample_job + ScanResult.Unverified sample_job
   = ScanResult.TotalSecrets sample_job)%Z ∧
  Forall (λ x, SecretResult.Verified x = false)
         (ScanResult.Secrets sample_job) ∧
  ScanResult.Verified sample_job = 0%Z.
Proof.
  destruct (completed_job_counts always_parses map_to_list
              sample_world "job-1" sample_job
              sample_world_reachable sample_job_at)
    as (H1 & H2 & H3 & H4 & g & Hg & _ & H5); [by vm_compute|].
  assert (g = sample_goroutine AtWebhook) as ->.
  { assert (goroutines sample_world = [sample_goroutine AtWebhook]) as Hgs
      by (by vm_compute).
    rewrite Hgs in Hg. by apply list_elem_of_singleton in Hg. }
  destruct (H5 eq_refl) as [H6 H7].
  split_and!; [exact H1 | exact H2 | exact H3 | exact H4 | exact H6 | exact H7].
Defined.

Lemma raw_never_leaves_witness :
  safe_job sample_job ∧
  Forall (λ req, req_Body req = None) (delivered final_world).
Proof.
  destruct sample_final_run as [tr Hrun].
  pose proof (reachable_run _ _ _ _ _ sample_world_reachable Hrun) as Hfin.
  destruct (raw_never_leaves always_parses map_to_list
              (λ m, reflexivity (map_to_list m)) sample_world
              sample_world_reachable) as (H1 & _).
  destruct (raw_never_leaves always_parses map_to_list
              (λ m, reflexivity (map_to_list m)) final_world Hfin)
    as (_ & _ & _ & H4).
  split; [by apply (H1 "job-1") | done].
Defined.

Lemma GetStatus_unknown_and_List_witness :
  HandleGetScan (sample_get "job-2") (srv sample_world)
    = (http_Error "Scan not found" StatusNotFound, srv sample_world) ∧
  HandleListScans map_to_list (sample_get "") (srv (initial ok_network))
    = ({| rw_code := StatusOK; rw_ContentType := "application/json";
          rw_body := Json (JObject [("scans", JArray []);
                                    ("total", JNumber 0)]) |},
       srv (initial ok_network)).
Proof.
  destruct (GetStatus_unknown_and_List always_parses map_to_list
              (λ m, reflexivity (map_to_list m)) (sample_get "job-2"))
    as (H1 & _); [done|].
  destruct (GetStatus_unknown_and_List always_parses map_to_list
              (λ m, reflexivity (map_to_list m)) (sample_get ""))
    as (_ & _ & H3 & _); [done|].
  split; [apply H1; by vm_compute | by apply H3].
Defined.

Lemma sendWebhook_fire_and_forget_witness :
  sendWebhook always_parses "t2" "" "job-1" (srv sample_world)
    = Some (srv sample_world, []) ∧
  ∃ out,
    sendWebhook always_parses "t2" "https://hooks.example/scan" "job-1"
                (srv sample_world)
      = Some (srv sample_world, out) ∧
    job_at (srv sample_world) "job-1" = Some sample_job ∧
    (List.length out ≤ 1)%nat.
Proof.
  destruct (sendWebhook_fire_and_forget always_parses "t2" "job-1"
              (srv sample_world)) as (H1 & H).
  destruct (H "https://hooks.example/scan" sample_job sample_job_at)
    as ((out & H2 & H3 & H4 & _) & _).
  split; [exact H1|]. exists out. split_and!; [exact H2 | exact H3 | exact H4].
Defined.


(** * Further properties of the code *)

Section occurrence.

Import exa.

Lemma append_cons (c : ascii) (s t : string) :
  String c s ++ t = String c (s ++ t).
Proof. reflexivity. Qed.

Lemma append_nil_l (t : string) : "" ++ t = t.
Proof. reflexivity. Qed.

Lemma append_assoc_string (a b c : string) : (a ++ b) ++ c = a ++ b ++ c.
Proof.
  induction a as [|x a IH]; [done|].
  rewrite !append_cons. by rewrite IH.
Qed.

Lemma prefix_app (g r : string) : String.prefix g (g ++ r) = true.
Proof.
  induction g as [|c g IH]; [by destruct r|].
  rewrite append_cons. cbn [String.prefix].
  destruct (ascii_dec c c); [done | congruence].
Qed.

Lemma Contains_prefix (s sub : string) :
  String.prefix sub s = true → Contains s sub = true.
Proof. intros H. destruct s; cbn [Contains]; by rewrite H. Qed.

Lemma Contains_app_r (pre s sub : string) :
  Contains s sub = true → Contains (pre ++ s) sub = true.
Proof.
  intros H. induction pre as [|c pre IH]; [done|].
  rewrite append_cons. cbn [Contains].
  destruct (String.prefix sub (String c (pre ++ s))); done.
Qed.

Lemma take_class_app cls n s m r :
  take_class cls n s = Some (m, r) → s = m ++ r.
Proof. by intros (-> & _)%take_class_spec. Qed.

Lemma match_pieces_app ps : ∀ prev s m r,
  match_pieces ps prev s = Some (m, r) → s = m ++ r.
Proof.
  induction ps as [|[|cls n|c] ps IH]; intros prev s m r H.
  - by apply match_nil in H as [-> ->].
  - apply match_Bnd in H as [_ H]. by eapply IH.
  - apply match_Rep in H as (m1 & r1 & m' & Ht & H & ->).
    apply take_class_app in Ht as ->. apply IH in H as ->.
    by rewrite append_assoc_string.
  - apply match_Lit in H as (s' & m' & -> & H & ->).
    apply IH in H as ->. done.
Qed.

(** Every match reported for [s] was found at some position of [s]. *)
Lemma find_all_from_positions re : ∀ s prev skip sub,
  sub ∈ find_all_from re prev skip s →
  ∃ pre prev' s', s = pre ++ s' ∧ match_here re prev' s' = Some sub.
Proof.
  induction s as [|c s IH]; intros prev skip sub; cbn [find_all_from].
  - destruct skip; [|by intros ?%elem_of_nil].
    destruct (match_here re prev "") eqn:Hm; [|by intros ?%elem_of_nil].
    intros ->%list_elem_of_singleton. by exists "", prev, "".
  - assert (∀ k, sub ∈ find_all_from re (Some c) k s →
                 ∃ pre prev' s', String c s = pre ++ s' ∧
                                 match_here re prev' s' = Some sub) as Hrest.
    { intros k (pre & prev' & s' & -> & Hm)%IH.
      by exists (String c pre), prev', s'. }
    destruct skip; [|by apply Hrest].
    destruct (match_here re prev (String c s)) eqn:Hm; [|by apply Hrest].
    intros [->|Hin]%elem_of_cons; [|by eapply Hrest].
    by exists "", prev, (String c s).
Qed.

Lemma match_here_keyPat_prefix prev s tok :
  match_here keyPat prev s = Some [tok; tok] → String.prefix tok s = true.
Proof.
  intros (m1 & r1 & g & r2 & m3 & r3 & H1 & H2 & H3 & Heq)%match_here_inv.
  apply match_Bnd in H1 as [_ [-> ->]%match_nil].
  apply match_Bnd in H3 as [_ [-> ->]%match_nil].
  apply match_pieces_app in H2 as ->.
  injection Heq as _ ->. apply prefix_app.
Qed.

Lemma matched_literals_occur data tok :
  tok ∈ matched_literals data → Contains data tok = true.
Proof.
  unfold matched_literals, literals. rewrite list_elem_of_omap.
  intros (sub & Hin & Hsub).
  apply find_all_from_positions in Hin as (pre & prev' & s' & -> & Hm).
  destruct (match_here_keyPat _ _ _ Hm) as (t & -> & _).
  simpl in Hsub. injection Hsub as ->.
  apply Contains_app_r, Contains_prefix.
  by eapply match_here_keyPat_prefix.
Qed.

Lemma short_input_no_literal data :
  (String.length data < 36)%nat → matched_literals data = [].
Proof.
  intros Hlt. destruct (matched_literals data) as [|tok l] eqn:Hl; [done|].
  assert (tok ∈ matched_literals data) as Hin by (rewrite Hl; by left).
  pose proof (matched_literals_occur _ _ Hin) as Hc%Contains_length.
  apply matched_literals_uuid, is_uuid_length in Hin. lia.
Qed.

End occurrence.

Section extraction_sound.

Variable range : gset string → list string.
Hypothesis range_perm : ∀ m, range m ≡ₚ elements m.

(** X1: [FromData] reports only what is in its input: the raw literal
    of every result occurs in the data, and an input of fewer than 36
    bytes, the empty one included, yields no result. *)
Theorem FromData_reports_occurrences dc s ctx verify data :
  ∃ results,
    exa.FromData range dc s ctx verify data = Some results ∧
    Forall (λ r, Contains data (detectors.Raw r) = true) results ∧
    ((String.length data < 36)%nat → results = []).
Proof.
  eexists. split; [by apply FromData_eq|]. split.
  - rewrite Forall_fmap, Forall_forall. intros tok Htok. simpl.
    rewrite Raw_exa_result. rewrite range_perm in Htok.
    apply elem_of_elements, elem_of_list_to_set in Htok.
    by apply matched_literals_occur.
  - intros Hlt. rewrite short_input_no_literal by done.
    assert (range (list_to_set [] : gset string) = []) as ->; [|done].
    apply Permutation_nil_r. rewrite range_perm.
    by rewrite list_to_set_nil, elements_empty.
Qed.

End extraction_sound.

Section completeness.

Import exa.

Lemma hex_lower_is_word c : hex_lower c = true → is_word c = true.
Proof.
  unfold hex_lower, is_word, in_range. intros H.
  apply orb_prop in H as [H|H]; apply andb_prop in H as [H1 H2];
    apply N.leb_le in H1; apply N.leb_le in H2.
  - apply orb_true_intro. left. apply orb_true_intro. right.
    apply andb_true_intro. split; apply N.leb_le.
    + exact H1.
    + etrans; [exact H2|]. by vm_compute.
  - apply orb_true_intro. left. apply orb_true_intro. left.
    apply orb_true_intro. left.
    apply andb_true_intro. split; apply N.leb_le; done.
Qed.

Lemma non_word_not_hex c : is_word c = false → hex_lower c = false.
Proof.
  intros H. destruct (hex_lower c) eqn:Hh; [|done].
  apply hex_lower_is_word in Hh. congruence.
Qed.

(** No match starts at a byte that is not a word byte. *)
Lemma match_here_non_word prev c s :
  is_word c = false → match_here keyPat prev (String c s) = None.
Proof.
  intros Hc%non_word_not_hex. unfold match_here, keyPat. cbn -[hex_lower].
  destruct (at_boundary prev (String c s)); cbn -[hex_lower]; [|done].
  by rewrite Hc.
Qed.

Lemma match_here_empty prev : match_here keyPat prev "" = None.
Proof. unfold match_here, keyPat. cbn. by destruct (at_boundary prev ""). Qed.

Lemma find_all_non_word s : ∀ prev,
  non_word s = true → find_all_from keyPat prev 0 s = [].
Proof.
  induction s as [|c s IH]; intros prev H; cbn [find_all_from].
  - by rewrite match_here_empty.
  - cbn [non_word string_forallb] in H.
    apply andb_prop in H as [Hc%negb_true_iff Hs].
    rewrite match_here_non_word by done. by apply IH.
Qed.

Lemma last_byte_non_word pre : ∀ prev,
  non_word pre = true → word_before prev = false →
  word_before (last_byte prev pre) = false.
Proof.
  induction pre as [|c pre IH]; intros prev H Hp; [done|].
  cbn [non_word string_forallb] in H.
  apply andb_prop in H as [Hc%negb_true_iff Hs].
  cbn [last_byte]. by apply IH.
Qed.

Lemma find_all_skip_non_word pre s : ∀ prev,
  non_word pre = true →
  find_all_from keyPat prev 0 (pre ++ s)
  = find_all_from keyPat (last_byte prev pre) 0 s.
Proof.
  induction pre as [|c pre IH]; intros prev H; [done|].
  cbn [non_word string_forallb] in H.
  apply andb_prop in H as [Hc%negb_true_iff Hs].
  rewrite append_cons. cbn [find_all_from last_byte].
  rewrite match_here_non_word by done. by apply IH.
Qed.

(** Stepping over the bytes of a match. *)
Lemma find_all_skip re m s : ∀ prev,
  find_all_from re prev (String.length m) (m ++ s)
  = find_all_from re (last_byte prev m) 0 s.
Proof.
  induction m as [|c m IH]; intros prev; [done|].
  rewrite append_cons. cbn [find_all_from String.length last_byte Nat.pred].
  apply IH.
Qed.

(** A key between two places that are not inside a word is matched. *)
Lemma match_here_key prev tok post :
  is_uuid tok = true → word_before prev = false → word_after post = false →
  match_here keyPat prev (tok ++ post) = Some [tok; tok].
Proof.
  intros Hu Hprev Hpost. pose proof (is_uuid_length _ Hu) as Hlen.
  unfold is_uuid in Hu. apply andb_prop in Hu as [_ Hu].
  explode tok Hlen.
  cbn -[hex_lower] in Hu. unfold uuid_byte_ok in Hu. cbn -[hex_lower] in Hu.
  repeat match goal with
         | H : _ && _ = true |- _ => apply andb_prop in H as [? H]
         end.
  repeat match goal with
         | H : Ascii.eqb _ _ = true |- _ => apply Ascii.eqb_eq in H; subst
         end.
  rewrite !append_cons, append_nil_l.
  assert (∀ c s, hex_lower c = true → at_boundary prev (String c s) = true)
    as Hstart.
  { intros c s Hc%hex_lower_is_word. unfold at_boundary. rewrite Hprev.
    cbn [word_after]. by rewrite Hc. }
  assert (∀ c, hex_lower c = true → at_boundary (Some c) post = true) as Hend.
  { intros c Hc%hex_lower_is_word. unfold at_boundary. rewrite Hpost.
    cbn [word_before]. by rewrite Hc. }
  unfold match_here, keyPat. cbn -[hex_lower at_boundary].
  rewrite Hstart by assumption. cbn -[hex_lower at_boundary].
  repeat (progress (repeat match goal with
                           | H : hex_lower ?c = true
                             |- context [if hex_lower ?c then _ else _] =>
                               rewrite H
                           end;
                    cbn -[hex_lower at_boundary])).
  rewrite !append_cons, !append_nil_l. cbn -[hex_lower at_boundary].
  rewrite Hend by assumption. reflexivity.
Qed.

Lemma matched_literals_key pre tok post :
  non_word pre = true → is_uuid tok = true → non_word post = true →
  matched_literals (pre ++ tok ++ post) = [tok].
Proof.
  intros Hpre Hu Hpost.
  unfold matched_literals, FindAllStringSubmatch.
  rewrite find_all_skip_non_word by done.
  assert (word_before (last_byte None pre) = false) as Hprev
    by (by apply last_byte_non_word).
  assert (word_after post = false) as Hafter.
  { destruct post as [|c post]; [done|]. cbn [non_word string_forallb] in Hpost.
    by apply andb_prop in Hpost as [?%negb_true_iff _]. }
  pose proof (match_here_key _ _ _ Hu Hprev Hafter) as Hm.
  pose proof (is_uuid_length _ Hu) as Hlen.
  destruct tok as [|c tok]; [done|].
  rewrite append_cons in *. cbn [find_all_from]. rewrite Hm.
  cbn [whole lookup list_lookup default from_option id].
  cbn [String.length Nat.pred].
  rewrite find_all_skip, find_all_non_word by done.
  done.
Qed.

End completeness.

Section extraction_complete.

Variable range : gset string → list string.
Hypothesis range_perm : ∀ m, range m ≡ₚ elements m.

Lemma range_singleton (tok : string) :
  range (list_to_set [tok]) = [tok].
Proof.
  apply Permutation_singleton_r. rewrite range_perm.
  rewrite list_to_set_cons, list_to_set_nil, (right_id_L ∅ (∪)).
  by rewrite elements_singleton.
Qed.

(** X2: a well-formed key that stands between separators is found: for
    a text made of bytes that are not word bytes, then a key of the
    shape 8-4-4-4-12, then again bytes that are not word bytes,
    [FromData] returns exactly one result, whose raw literal is the key
    and whose redacted form is its first 8 bytes and ["..."]. *)
Theorem FromData_finds_delimited_key dc s ctx verify pre tok post :
  non_word pre = true → is_uuid tok = true → non_word post = true →
  ∃ r, exa.FromData range dc s ctx verify (pre ++ tok ++ post) = Some [r] ∧
       detectors.Raw r = tok ∧
       detectors.Redacted r = substring 0 8 tok ++ "..." ∧
       detectors.DetectorType r = detectorspb.DetectorType_Exa.
Proof.
  intros Hpre Hu Hpost. exists (exa_result dc s ctx verify tok).
  rewrite (FromData_eq range range_perm).
  rewrite matched_literals_key by done. rewrite range_singleton.
  split_and!; [done | apply Raw_exa_result | apply Redacted_exa_result |].
  unfold exa_result. by destruct verify.
Qed.

Lemma verifyToken_true_iff c cl tok :
  (exa.verifyToken (Some c) cl tok).1 = true
  ↔ responds cl (exa_request c tok) 200.
Proof.
  unfold exa.verifyToken, responds. simpl. fold (exa_request c tok).
  destruct (cl (exa_request c tok)) as [err|res].
  - simpl. split; [done | by intros (? & ? & _)].
  - repeat case_decide; simpl.
    + split; [intros _; by exists res | done].
    + split; [done | intros (r & [= <-] & ?); done].
    + split; [done | intros (r & [= <-] & ?); done].
Qed.

Lemma Verified_exa_result dc s ctx tok :
  detectors.Verified (exa_result dc s ctx true tok)
  = (exa.verifyToken ctx (chosen_client dc s) tok).1.
Proof. done. Qed.

(** X3: with [verify] set, every result is checked against the
    endpoint with the scanner's own client when it has one and the
    package default otherwise, and it is marked verified exactly when
    the endpoint answers 200 to the request that carries the result's
    raw literal in [x-api-key]; without a context nothing is verified. *)
Theorem FromData_verifies_each_result dc s data :
  (∀ c, ∃ results,
      exa.FromData range dc s (Some c) true data = Some results ∧
      Forall (λ r, detectors.Verified r = true
                   ↔ responds (chosen_client dc s)
                       (exa_request c (detectors.Raw r)) 200)
             results) ∧
  (∃ results,
      exa.FromData range dc s None true data = Some results ∧
      Forall (λ r, detectors.Verified r = false) results).
Proof.
  split.
  - intros c. eexists. split; [by apply FromData_eq|].
    rewrite Forall_fmap, Forall_forall. intros tok _. unfold compose.
    rewrite Raw_exa_result, Verified_exa_result.
    apply verifyToken_true_iff.
  - eexists. split; [by apply FromData_eq|].
    rewrite Forall_fmap, Forall_forall. intros tok _. done.
Qed.

(** X4: with [verify] unset the detector does not use the network: the
    results are the same for every client, scanner configuration and
    context, and none is marked verified. *)
Theorem FromData_unverified_is_offline dc s ctx dc' s' ctx' data :
  exa.FromData range dc s ctx false data
  = exa.FromData range dc' s' ctx' false data ∧
  ∃ results,
    exa.FromData range dc s ctx false data = Some results ∧
    Forall (λ r, detectors.Verified r = false) results.
Proof.
  rewrite !(FromData_eq range range_perm). split; [done|].
  eexists. split; [done|].
  rewrite Forall_fmap, Forall_forall. by intros tok _.
Qed.

End extraction_complete.

Section job_records.

Variable url_parses : string → bool.
Variable range : gmap string nat → list (string * nat).

(** The exact write of one step of a goroutine. *)
Lemma performScan_step_writes w i g now ext sent g' s' out :
  Inv w →
  goroutines w !! i = Some g →
  performScan_step url_parses now ext sent g (srv w) = Some (g', s', out) →
  ∃ p j f,
    scans (srv w) !! g_scanID g = Some p ∧ heap (srv w) !! p = Some j ∧
    s' = with_heap (alter f p (heap (srv w))) (srv w) ∧
    writes j (f j) ∧
    g_scanID g' = g_scanID g ∧ g_req g' = g_req g ∧
    steps_left (g_pc g') < steps_left (g_pc g).
Proof.
  intros HI Hi Hstep.
  assert (g ∈ goroutines w) as Hg by (by eapply list_elem_of_lookup_2).
  destruct (inv_pc w HI g Hg) as (p & j & Hp & Hj & Hag).
  exists p, j.
  assert (srv w = with_heap (alter id p (heap (srv w))) (srv w)) as Hid
    by (by rewrite list_alter_id, with_heap_id).
  unfold performScan_step in Hstep. unfold pc_agrees in Hag.
  destruct (g_pc g) as [|q|q|q| |] eqn:Hpc.
  - rewrite Hp in Hstep. simpl in Hstep. rewrite Hj in Hstep. simpl in Hstep.
    injection Hstep as <- <- <-. destruct Hag as [Hst Hun].
    exists (ScanResult.set_Status "running"). simpl.
    split_and!; [done..|by constructor|done|done|lia].
  - destruct Hag as (-> & Hst & Hun).
    destruct ext as [err|]; injection Hstep as <- <- <-.
    + erewrite updateScanError_alter by done.
      exists (failed_with now ("Failed to initialize git source: " ++ err)).
      simpl. split_and!; [done..| |done|done|lia].
      apply (writes_failed _ _ err); [done..|]. unfold failure_messages.
      set_solver.
    + exists id. simpl. split_and!; [done..|constructor|done|done|lia].
  - destruct Hag as (-> & Hst & Hun).
    destruct ext as [err|]; injection Hstep as <- <- <-.
    + erewrite updateScanError_alter by done.
      exists (failed_with now ("Failed to set source unit: " ++ err)).
      simpl. split_and!; [done..| |done|done|lia].
      apply (writes_failed _ _ err); [done..|]. unfold failure_messages.
      set_solver.
    + exists id. simpl. split_and!; [done..|constructor|done|done|lia].
  - destruct Hag as (-> & Hst & Hun).
    injection Hstep as <- <- <-.
    exists (complete now (drain sent)). simpl.
    split_and!; [done..|by constructor|done|done|lia].
  - destruct (sendWebhook url_parses now _ _ (srv w)) as [[s2 out2]|] eqn:Hsw;
      simpl in Hstep; [|done].
    injection Hstep as <- <- <-.
    apply sendWebhook_inv in Hsw as (-> & _ & _).
    exists id. simpl. split_and!; [done..|constructor|done|done|lia].
  - done.
Qed.

(** X5: [performScan] never dereferences a nil pointer.  In every
    reachable state a goroutine that has not returned can take its next
    step, whatever the clock reads, the collaborators answer and the
    channel holds; the step keeps its identifier and request and brings
    it strictly closer to returning, which it does after at most five
    steps. *)
Theorem performScan_never_panics w i g now ext sent :
  reachable url_parses range w →
  goroutines w !! i = Some g →
  g_pc g ≠ Returned →
  ∃ g' s' out,
    performScan_step url_parses now ext sent g (srv w) = Some (g', s', out) ∧
    g_scanID g' = g_scanID g ∧ g_req g' = g_req g ∧
    steps_left (g_pc g') < steps_left (g_pc g) ≤ 5.
Proof.
  intros HI%Inv_reachable Hi Hpc.
  assert (is_Some (performScan_step url_parses now ext sent g (srv w)))
    as [[[g' s'] out] Hstep].
  { assert (g ∈ goroutines w) as Hg by (by eapply list_elem_of_lookup_2).
    destruct (inv_pc w HI g Hg) as (p & j & Hp & Hj & _).
    unfold performScan_step. destruct (g_pc g); try done.
    - rewrite Hp. simpl. by rewrite Hj.
    - by destruct ext.
    - by destruct ext.
    - unfold sendWebhook. case_decide; [done|].
      rewrite Hp. simpl. rewrite Hj. simpl.
      destruct (NewRequest url_parses "POST" _ None) as [req [err|]]; [done|].
      by destruct (webhookClient (srv w) _). }
  exists g', s', out. split; [done|].
  destruct (performScan_step_writes _ _ _ _ _ _ _ _ _ HI Hi Hstep)
    as (_ & _ & _ & _ & _ & _ & _ & Hid & Hreq & Hlt).
  split_and!; [done..|]. destruct (g_pc g); simpl; lia.
Qed.

(** X6: a goroutine writes to the record of its own job only.  One of
    its steps leaves the key set of the registry, the webhook client and
    the record of every other job as they were. *)
Theorem performScan_touches_own_job_only w i g now ext sent g' s' out :
  reachable url_parses range w →
  goroutines w !! i = Some g →
  performScan_step url_parses now ext sent g (srv w) = Some (g', s', out) →
  scans s' = scans (srv w) ∧
  webhookClient s' = webhookClient (srv w) ∧
  List.length (heap s') = List.length (heap (srv w)) ∧
  ∀ id, id ≠ g_scanID g → job_at s' id = job_at (srv w) id.
Proof.
  intros HI%Inv_reachable Hi Hstep.
  destruct (performScan_step_writes _ _ _ _ _ _ _ _ _ HI Hi Hstep)
    as (p & j & f & Hp & Hj & -> & _).
  simpl. split_and!; [done | done | apply length_alter |].
  intros id Hid. unfold job_at. simpl.
  destruct (scans (srv w) !! id) as [q|] eqn:Hq; [|done]. simpl.
  apply list_lookup_alter_ne. intros <-.
  destruct (inv_ptr w HI _ _ Hp) as (j1 & Hj1 & Hid1).
  destruct (inv_ptr w HI _ _ Hq) as (j2 & Hj2 & Hid2).
  congruence.
Qed.

(** Every record of the next state is a record of this one after one of
    the writes, or the record [HandleScan] has just allocated. *)
Lemma step_job_back w e w' id j' :
  Inv w → step url_parses range w e w' →
  job_at (srv w') id = Some j' →
  (∃ j, job_at (srv w) id = Some j ∧ writes j j')
  ∨ (job_at (srv w) id = None ∧
     ∃ now req, ScanRequest.RepoURL req ≠ "" ∧ j' = pending_job id now req).
Proof.
  intros HI Hstep Hj'. destruct Hstep; simpl in Hj'.
  - destruct (HandleScan_cases uuid now r (srv w))
      as [(Hs & _)|(req & _ & _ & Hrepo & Heq)].
    { rewrite Hs in Hj'. left. exists j'. split; [done | constructor]. }
    rewrite Heq in Hj'. simpl in Hj'.
    apply job_at_Some in Hj' as (p & Hp & Hj'). simpl in Hp, Hj'.
    rewrite lookup_insert in Hp. case_decide as Hid.
    + subst id. injection Hp as <-. right.
      rewrite lookup_app_r in Hj' by lia. rewrite Nat.sub_diag in Hj'.
      injection Hj' as <-. split; [|by exists now, req].
      unfold job_at. by rewrite H.
    + left. exists j'. split; [|constructor]. apply job_at_Some. exists p.
      split; [done|]. destruct (inv_ptr w HI _ _ Hp) as (j & Hj & _).
      rewrite lookup_app_l in Hj'; [done|]. by eapply lookup_lt_Some.
  - rewrite HandleGetScan_srv in Hj'. left. exists j'.
    split; [done | constructor].
  - rewrite HandleListScans_srv in Hj'. left. exists j'.
    split; [done | constructor].
  - destruct (performScan_step_writes _ _ _ _ _ _ _ _ _ HI H H1)
      as (p & j & f & Hp & Hj & -> & Hw & _).
    apply job_at_Some in Hj' as (q & Hq & Hj'). simpl in Hq, Hj'.
    left. destruct (decide (q = p)) as [->|Hne].
    + rewrite list_lookup_alter_eq, Hj in Hj'. injection Hj' as <-.
      exists j. split; [|done]. apply job_at_Some. by exists p.
    + rewrite list_lookup_alter_ne in Hj' by done.
      exists j'. split; [|constructor]. apply job_at_Some. by exists q.
Qed.

Lemma tally_frame secrets : ∀ j,
  ScanResult.RepoURL (tally secrets j) = ScanResult.RepoURL j ∧
  ScanResult.StartedAt (tally secrets j) = ScanResult.StartedAt j ∧
  ScanResult.CompletedAt (tally secrets j) = ScanResult.CompletedAt j ∧
  ScanResult.Error (tally secrets j) = ScanResult.Error j.
Proof.
  unfold tally. induction secrets as [|x secrets IH]; intros j; [done|].
  cbn [foldl].
  destruct (IH (if SecretResult.Verified x then ScanResult.incr_Verified j
                else ScanResult.incr_Unverified j)) as (-> & -> & -> & ->).
  by destruct (SecretResult.Verified x).
Qed.

Lemma complete_frame now secrets j :
  ScanResult.ScanID (complete now secrets j) = ScanResult.ScanID j ∧
  ScanResult.RepoURL (complete now secrets j) = ScanResult.RepoURL j ∧
  ScanResult.StartedAt (complete now secrets j) = ScanResult.StartedAt j ∧
  ScanResult.CompletedAt (complete now secrets j) = now ∧
  ScanResult.Error (complete now secrets j) = ScanResult.Error j.
Proof.
  unfold complete.
  destruct (tally_frame secrets
    (ScanResult.set_TotalSecrets (Z.of_nat (List.length secrets))
       (ScanResult.set_Secrets secrets
          (ScanResult.set_CompletedAt now
             (ScanResult.set_Status "completed" j)))))
    as (-> & -> & -> & ->).
  destruct (tally_spec secrets
    (ScanResult.set_TotalSecrets (Z.of_nat (List.length secrets))
       (ScanResult.set_Secrets secrets
          (ScanResult.set_CompletedAt now
             (ScanResult.set_Status "completed" j)))))
    as (_ & _ & -> & _).
  done.
Qed.

Lemma writes_identity j j' :
  writes j j' →
  ScanResult.ScanID j' = ScanResult.ScanID j ∧
  ScanResult.RepoURL j' = ScanResult.RepoURL j ∧
  ScanResult.StartedAt j' = ScanResult.StartedAt j.
Proof.
  intros [| | |now sent Hst Hun]; [done..|].
  by destruct (complete_frame now (drain sent) j) as (-> & -> & -> & _).
Qed.

Lemma failure_message_nonempty err msg :
  msg ∈ failure_messages err → msg ≠ "".
Proof.
  unfold failure_messages.
  intros [->|[->|[]%elem_of_nil]%elem_of_cons]%elem_of_cons; done.
Qed.

Lemma writes_shaped j j' : shaped j → writes j j' → shaped j'.
Proof.
  intros [Hrepo Hsh] Hw. pose proof (writes_identity _ _ Hw) as (_ & Hr & _).
  split; [by rewrite Hr|].
  destruct Hw as [|Hst Hun|now err msg Hst Hun Hmsg|now sent Hst Hun].
  - done.
  - left. split; [by right | done].
  - right. left. destruct Hun as (_ & ? & ? & ? & ? & _).
    split_and!; [done | by exists err | done..].
  - right. right.
    destruct (complete_spec now (drain sent) j Hun) as (Hc & _ & _ & Hcnt).
    destruct (complete_frame now (drain sent) j) as (_ & _ & _ & _ & He).
    destruct Hun as (_ & _ & _ & _ & _ & Herr).
    split_and!; [done | by rewrite He | done].
Qed.

Lemma pending_job_shaped id now req :
  ScanRequest.RepoURL req ≠ "" → shaped (pending_job id now req).
Proof. intros H. split; [done|]. left. split; [by left | done]. Qed.

Lemma run_shaped w tr w' :
  Inv w → (∀ id j, job_at (srv w) id = Some j → shaped j) →
  run url_parses range w tr w' →
  ∀ id j, job_at (srv w') id = Some j → shaped j.
Proof.
  intros HI H0 Hrun. induction Hrun as [|w tr w' e w'' Hrun IH Hstep]; [done|].
  intros id j'' Hj''.
  assert (Inv w') as HI' by (by eapply Inv_run).
  destruct (step_job_back _ _ _ _ _ HI' Hstep Hj'')
    as [(j' & Hj' & Hw)|(_ & now & req & Hrepo & ->)].
  - eapply writes_shaped; [|done]. by eapply IH.
  - by apply pending_job_shaped.
Qed.

Lemma Marshal_error_member j :
  member "error" (ScanResult.Marshal j)
  = if decide (ScanResult.Error j = "") then None
    else Some (JString (ScanResult.Error j)).
Proof.
  unfold ScanResult.Marshal, omitempty_string.
  destruct (decide (ScanResult.CompletedAt j = ""));
    destruct (ScanResult.Secrets j);
    destruct (decide (ScanResult.Error j = "")); by vm_compute.
Qed.

Lemma reachable_shaped w id j :
  reachable url_parses range w → job_at (srv w) id = Some j → shaped j.
Proof.
  intros (net & tr & Hrun) Hj.
  eapply (run_shaped (initial net)); [apply Inv_initial| |done..].
  intros id' j' H. unfold job_at in H. simpl in H.
  by rewrite lookup_empty in H.
Qed.

(** X7: what a stored record holds in each state.  In every reachable
    state a job has a non-empty [repo_url]; while pending or running it
    has no completion time, no secrets, no error and zero counters; when
    failed its error is one of the two messages of [performScan] followed
    by the cause, and it has no secrets; when completed it has no error.
    So a record is serialized with an ["error"] member exactly when the
    job has failed, and that member is never the empty string. *)
Theorem stored_job_shape w id j :
  reachable url_parses range w →
  job_at (srv w) id = Some j →
  shaped j ∧
  (ScanResult.Status j = "failed" ↔ ScanResult.Error j ≠ "") ∧
  member "error" (ScanResult.Marshal j)
  = (if decide (ScanResult.Status j = "failed")
     then Some (JString (ScanResult.Error j)) else None).
Proof.
  intros Hreach Hj.
  pose proof (reachable_shaped _ _ _ Hreach Hj) as Hsh.
  split; [done|].
  assert (ScanResult.Status j = "failed" ↔ ScanResult.Error j ≠ "") as Hiff.
  { destruct Hsh as [_ [[[Hst|Hst] Hun]|[(Hst & (err & Hmsg) & _)
                                        |(Hst & Herr & _)]]].
    - destruct Hun as (_ & _ & _ & _ & _ & Herr). rewrite Hst, Herr. done.
    - destruct Hun as (_ & _ & _ & _ & _ & Herr). rewrite Hst, Herr. done.
    - apply failure_message_nonempty in Hmsg. done.
    - rewrite Hst, Herr. done. }
  split; [done|]. rewrite Marshal_error_member.
  destruct (decide (ScanResult.Error j = "")) as [He|He];
    destruct (decide (ScanResult.Status j = "failed")) as [Hs|Hs];
    try done; apply Hiff in Hs || apply Hiff in He; done.
Qed.

Lemma step_job_writes w e w' id j :
  Inv w → step url_parses range w e w' →
  job_at (srv w) id = Some j →
  ∃ j', job_at (srv w') id = Some j' ∧ writes j j'.
Proof.
  intros HI Hstep Hj.
  destruct (step_job url_parses range _ _ _ _ _ HI Hstep Hj) as (j' & Hj' & _).
  exists j'. split; [done|].
  destruct (step_job_back _ _ _ _ _ HI Hstep Hj')
    as [(j0 & Hj0 & Hw)|(Hnone & _)]; [|congruence].
  assert (j0 = j) as -> by congruence. done.
Qed.

(** X8: the identity of a job is fixed at submission.  Along every run
    the record stored under an identifier keeps that identifier as its
    [scan_id], and its [repo_url] and [started_at] never change; the
    job is never removed. *)
Theorem job_identity_is_immutable w tr w' id j :
  reachable url_parses range w →
  run url_parses range w tr w' →
  job_at (srv w) id = Some j →
  ScanResult.ScanID j = id ∧
  ∃ j', job_at (srv w') id = Some j' ∧
        ScanResult.ScanID j' = id ∧
        ScanResult.RepoURL j' = ScanResult.RepoURL j ∧
        ScanResult.StartedAt j' = ScanResult.StartedAt j.
Proof.
  intros HI%Inv_reachable Hrun Hj.
  assert (ScanResult.ScanID j = id) as Hid.
  { apply job_at_Some in Hj as (p & Hp & Hj).
    destruct (inv_ptr w HI _ _ Hp) as (j0 & Hj0 & <-). congruence. }
  split; [done|].
  induction Hrun as [|w tr w' e w'' Hrun IH Hstep].
  - by exists j.
  - destruct (IH HI Hj) as (j' & Hj' & Hid' & Hr & Hs).
    assert (Inv w') as HI' by (by eapply Inv_run).
    destruct (step_job_writes _ _ _ _ _ HI' Hstep Hj') as (j'' & Hj'' & Hw).
    destruct (writes_identity _ _ Hw) as (Hi2 & Hr2 & Hs2).
    exists j''. split_and!; [done | congruence..].
Qed.

End job_records.

Section queries.

Variable url_parses : string → bool.
Variable range : gmap string nat → list (string * nat).

Lemma Marshal_scan_id j :
  member "scan_id" (ScanResult.Marshal j) = Some (JString (ScanResult.ScanID j)).
Proof. unfold ScanResult.Marshal. by vm_compute. Qed.

Lemma Marshal_status j :
  member "status" (ScanResult.Marshal j) = Some (JString (ScanResult.Status j)).
Proof. unfold ScanResult.Marshal. by vm_compute. Qed.

Lemma HandleGetScan_found r s p j :
  Method r = "GET" → Query_scan_id r ≠ "" →
  scans s !! Query_scan_id r = Some p → heap s !! p = Some j →
  HandleGetScan r s
  = ({| rw_code := StatusOK; rw_ContentType := "application/json";
        rw_body := Json (ScanResult.Marshal j) |}, s).
Proof.
  intros Hm Hid Hp Hj. unfold HandleGetScan.
  rewrite decide_False by (by intros []).
  rewrite decide_False by done. by rewrite Hp, Hj.
Qed.

(** X9: a submission can be read back at once.  After [HandleScan] has
    accepted a request under a non-empty identifier, a status query for
    that identifier is answered 200 with the record of the new job: its
    [scan_id] is the identifier of the 202 response, its status is
    pending, its [repo_url] is that of the request and its [started_at]
    the [created_at] of the response. *)
Theorem submitted_job_is_readable uuid now r q s req :
  Method r = "POST" → Body r = inr req → ScanRequest.RepoURL req ≠ "" →
  uuid ≠ "" → Method q = "GET" → Query_scan_id q = uuid →
  let s' := (HandleScan uuid now r s).1.2 in
  received_id (HandleScan uuid now r s).1.1 = Some uuid ∧
  HandleGetScan q s'
  = ({| rw_code := StatusOK; rw_ContentType := "application/json";
        rw_body := Json (ScanResult.Marshal (pending_job uuid now req)) |},
     s') ∧
  member "scan_id" (ScanResult.Marshal (pending_job uuid now req))
    = Some (JString uuid) ∧
  member "status" (ScanResult.Marshal (pending_job uuid now req))
    = Some (JString "pending") ∧
  member "repo_url" (ScanResult.Marshal (pending_job uuid now req))
    = Some (JString (ScanRequest.RepoURL req)) ∧
  member "started_at" (ScanResult.Marshal (pending_job uuid now req))
    = member "created_at" (accepted_body uuid now).
Proof.
  intros Hm Hb Hrepo Hu Hq Hid.
  destruct (HandleScan_cases uuid now r s)
    as [(_ & _ & _ & [?|[[? ?]|(req' & ? & ?)]])|(req' & _ & Hb' & _ & Heq)];
    try congruence.
  assert (req' = req) as -> by congruence.
  rewrite Heq. cbn [fst snd].
  split_and!; [done| |by vm_compute..].
  apply (HandleGetScan_found _ _ (List.length (heap s))); [done| | |].
  - by rewrite Hid.
  - rewrite Hid. simpl. by rewrite lookup_insert_eq.
  - simpl. rewrite lookup_app_r by lia. by rewrite Nat.sub_diag.
Qed.

(** X10: a status query never shows another job.  In every reachable
    state a GET for a non-empty identifier that is in the registry is
    answered 200 with the record stored under it, whose [scan_id] is the
    identifier asked for and whose status is one of the four states; the
    server is left as it was. *)
Theorem GetStatus_returns_the_job_asked_for w q p :
  reachable url_parses range w →
  Method q = "GET" → Query_scan_id q ≠ "" →
  scans (srv w) !! Query_scan_id q = Some p →
  ∃ j,
    job_at (srv w) (Query_scan_id q) = Some j ∧
    HandleGetScan q (srv w)
    = ({| rw_code := StatusOK; rw_ContentType := "application/json";
          rw_body := Json (ScanResult.Marshal j) |}, srv w) ∧
    member "scan_id" (ScanResult.Marshal j) = Some (JString (Query_scan_id q)) ∧
    ScanResult.Status j ∈ ["pending"; "running"; "completed"; "failed"].
Proof.
  intros Hreach Hm Hid Hp. pose proof (Inv_reachable _ _ _ Hreach) as HI.
  destruct (inv_ptr w HI _ _ Hp) as (j & Hj & Hsid).
  assert (job_at (srv w) (Query_scan_id q) = Some j) as Hjob
    by (apply job_at_Some; eauto).
  exists j. split_and!; [done | by eapply HandleGetScan_found | |].
  - by rewrite Marshal_scan_id, Hsid.
  - destruct (reachable_shaped url_parses range w _ j Hreach Hjob)
      as [_ [[[->| ->] _]|[(-> & _)|(-> & _)]]]; set_solver.
Qed.

End queries.

Section deliveries.

Variable url_parses : string → bool.
Variable range : gmap string nat → list (string * nat).

Lemma filter_insert_out {A} (P : A → Prop) `{∀ x, Decision (P x)}
    (l : list A) : ∀ i g g',
  l !! i = Some g → ¬ P g → ¬ P g' → filter P (<[i := g']> l) = filter P l.
Proof.
  induction l as [|x l IH]; intros i g g' Hi Hg Hg'; [done|].
  destruct i as [|i]; simpl in *.
  - injection Hi as ->. by rewrite !filter_cons, !decide_False.
  - rewrite !filter_cons. rewrite (IH i g g'); done.
Qed.

Lemma filter_insert_in {A} (P : A → Prop) `{∀ x, Decision (P x)}
    (l : list A) : ∀ i g g',
  l !! i = Some g → ¬ P g → P g' →
  filter P (<[i := g']> l) ≡ₚ g' :: filter P l.
Proof.
  induction l as [|x l IH]; intros i g g' Hi Hg Hg'; [done|].
  destruct i as [|i]; simpl in *.
  - injection Hi as ->. rewrite !filter_cons.
    by rewrite decide_True, decide_False.
  - rewrite !filter_cons. destruct (decide (P x)).
    + rewrite (IH i g g') by done. apply Permutation_swap.
    + by apply (IH i g g').
Qed.

Lemma String_eqb_empty (u : string) :
  negb (String.eqb u "") = true ↔ u ≠ "".
Proof.
  rewrite negb_true_iff. destruct (String.eqb_spec u ""); split; done.
Qed.

(** What one step of a goroutine hands to the webhook client. *)
Lemma performScan_step_delivery now ext sent g s g' s' out :
  performScan_step url_parses now ext sent g s = Some (g', s', out) →
  notified url_parses g = false ∧
  out = (if notified url_parses g'
         then [webhook_request (ScanRequest.WebhookURL (g_req g'))] else []).
Proof.
  unfold performScan_step, notified. destruct (g_pc g) eqn:Hpc.
  - destruct (scans s !! g_scanID g); simpl; [|done].
    destruct (heap s !! _); simpl; [|done]. by intros [= <- <- <-].
  - destruct ext; by intros [= <- <- <-].
  - destruct ext; by intros [= <- <- <-].
  - by intros [= <- <- <-].
  - destruct (sendWebhook url_parses now _ _ s) as [[s2 out2]|] eqn:Hsw;
      simpl; [|done].
    intros [= <- <- <-]. split; [done|]. simpl.
    unfold sendWebhook in Hsw. case_decide as Hurl.
    { injection Hsw as <- <-. rewrite Hurl. done. }
    apply String_eqb_empty in Hurl. rewrite Hurl. simpl.
    destruct (scans s !! g_scanID g); simpl in Hsw; [|done].
    destruct (heap s !! _); simpl in Hsw; [|done].
    unfold NewRequest in Hsw.
    destruct (url_parses (ScanRequest.WebhookURL (g_req g))).
    + destruct (webhookClient s _); by injection Hsw as <- <-.
    + by injection Hsw as <- <-.
  - done.
Qed.

Lemma run_deliveries net tr w :
  run url_parses range (initial net) tr w →
  delivered w
  ≡ₚ (λ g, webhook_request (ScanRequest.WebhookURL (g_req g)))
       <$> filter (λ g, notified url_parses g = true) (goroutines w).
Proof.
  intros Hrun. remember (initial net) as w0 eqn:Hw0.
  induction Hrun as [|w0 tr w1 e w2 Hrun IH Hstep]; [by subst|].
  specialize (IH Hw0).
  destruct Hstep as [w1 r uuid now Hfresh|w1 r|w1 r
                    |w1 i g now ext sent g' s' out Hi Hsent Hstep];
    cbn [goroutines delivered srv].
  - destruct (HandleScan_cases uuid now r (srv w1))
      as [(_ & Hg & _)|(req & _ & _ & _ & Heq)].
    + rewrite Hg. cbn [option_list]. by rewrite app_nil_r.
    + rewrite Heq. cbn [snd option_list].
      rewrite filter_app, fmap_app, <- IH.
      change (option_list (Some ?x)) with [x].
      rewrite filter_cons, decide_False by done.
      rewrite filter_nil. cbn [fmap list_fmap]. by rewrite app_nil_r.
  - done.
  - done.
  - destruct (performScan_step_delivery _ _ _ _ _ _ _ _ Hstep) as [Hg ->].
    destruct (notified url_parses g') eqn:Hg'.
    + rewrite (filter_insert_in _ _ i g g') by (done || congruence).
      rewrite fmap_cons, <- IH. by rewrite Permutation_app_comm.
    + rewrite (filter_insert_out _ _ i g g') by (done || congruence).
      by rewrite app_nil_r.
Qed.

(** X11: one webhook request per finished job, and no other.  In every
    reachable state the requests handed to the webhook client are, up
    to order, one POST for each goroutine that has returned and whose
    [webhook_url] is non-empty and parses, sent to that URL with the
    three headers and no body; the goroutines belong to distinct jobs,
    so no job is notified twice, none before its goroutine is done, and
    none without a usable URL. *)
Theorem webhook_deliveries w :
  reachable url_parses range w →
  delivered w
  ≡ₚ (λ g, webhook_request (ScanRequest.WebhookURL (g_req g)))
       <$> filter (λ g, notified url_parses g = true) (goroutines w) ∧
  NoDup (g_scanID <$> goroutines w) ∧
  ∀ g, g ∈ goroutines w → notified url_parses g = true →
       ∃ j, job_at (srv w) (g_scanID g) = Some j ∧
            terminal (ScanResult.Status j).
Proof.
  intros Hreach. pose proof (Inv_reachable _ _ _ Hreach) as HI.
  destruct Hreach as (net & tr & Hrun).
  split_and!; [by eapply run_deliveries | apply (inv_nodup w HI) |].
  intros g Hg Hn. destruct (inv_pc w HI g Hg) as (p & j & Hp & Hj & Hag).
  exists j. split; [apply job_at_Some; eauto|].
  unfold notified in Hn. unfold pc_agrees in Hag.
  destruct (g_pc g); try done. by destruct Hag.
Qed.

End deliveries.

Section routes.

Variable range : gmap string nat → list (string * nat).

(** X12: of all requests the server routes, only an accepted
    [POST /api/v1/scan] changes anything.  Every other request, whatever
    its path, method and body, leaves the server as it was and starts no
    goroutine; [/health] answers 200 with status healthy for every
    method and in every state; a path without a route reaches no
    handler; the scan route refuses every method but POST, and the two
    read routes every method but GET, with 405. *)
Theorem only_accepted_scans_change_the_server uuid now path r s :
  let out := ServeHTTP range uuid now path r s in
  ((out.1.2 = s ∧ out.2 = None)
   ∨ (path = "/api/v1/scan" ∧ Method r = "POST" ∧
      ∃ req rw, Body r = inr req ∧ ScanRequest.RepoURL req ≠ "" ∧
                out.1.1 = Some rw ∧ rw_code rw = StatusAccepted ∧
                out.2 = Some {| g_scanID := uuid; g_req := req;
                                g_pc := AtStart |})) ∧
  (path = "/health" →
     ∃ rw, out = (Some rw, s, None) ∧ rw_code rw = StatusOK ∧
           rw_body rw = Json (JObject [("status", JString "healthy")])) ∧
  (mux path = None → out = (None, s, None)) ∧
  (path = "/api/v1/scan" → Method r ≠ "POST" →
     out.1.1 = Some (http_Error "Method not allowed" StatusMethodNotAllowed)) ∧
  (path = "/api/v1/scan/status" ∨ path = "/api/v1/scans" →
     Method r ≠ "GET" →
     out.1.1 = Some (http_Error "Method not allowed" StatusMethodNotAllowed)).
Proof.
  unfold ServeHTTP. split_and!.
  - destruct (mux path) as [[]|] eqn:Hmux; simpl.
    + destruct (HandleScan_cases uuid now r s)
        as [(Hs & Hg & _)|(req & Hm & Hb & Hrepo & Heq)].
      * left. destruct (HandleScan uuid now r s) as [[rw s'] g].
        simpl in *. by subst.
      * right. rewrite Heq. simpl. split_and!; [|done|].
        -- unfold mux in Hmux. by repeat case_decide.
        -- by eexists req, _.
    + left. pose proof (HandleGetScan_srv r s) as Hs.
      destruct (HandleGetScan r s) as [rw s']. simpl in *. by subst.
    + left. pose proof (HandleListScans_srv range r s) as Hs.
      destruct (HandleListScans range r s) as [rw s']. simpl in *. by subst.
    + by left.
    + by left.
  - intros ->. by eexists.
  - by intros ->.
  - intros -> Hm. cbn. unfold HandleScan. by rewrite decide_True.
  - intros [-> | ->] Hm; cbn.
    + unfold HandleGetScan. by rewrite decide_True.
    + unfold HandleListScans. by rewrite decide_True.
Qed.

End routes.


Section order.

Variable range1 range2 : gset string → list string.
Hypothesis range1_perm : ∀ m, range1 m ≡ₚ elements m.
Hypothesis range2_perm : ∀ m, range2 m ≡ₚ elements m.

(** X13: the order in which Go visits the map does not matter beyond
    the order of the results: for any two orders [FromData] returns the
    same results up to a permutation. *)
Theorem FromData_order_is_irrelevant dc s ctx verify data :
  ∃ results1 results2,
    exa.FromData range1 dc s ctx verify data = Some results1 ∧
    exa.FromData range2 dc s ctx verify data = Some results2 ∧
    results1 ≡ₚ results2.
Proof.
  eexists _, _. split_and!; [by apply FromData_eq..|].
  apply fmap_Permutation. by rewrite range1_perm, range2_perm.
Qed.

End order.

Section registry_writes.

Variable range : gmap string nat → list (string * nat).
Hypothesis range_perm : ∀ m, range m ≡ₚ map_to_list m.

(** X14: [updateScanError] does nothing for an identifier that is not
    in the registry; for one that is, it sets the status of that job to
    failed, its error to the message and its completion time to the
    clock, and leaves every other field of the record, every other
    record and the registry itself as they were. *)
Theorem updateScanError_writes_three_fields now id msg s :
  (scans s !! id = None → updateScanError now id msg s = s) ∧
  (∀ p j, scans s !! id = Some p → heap s !! p = Some j →
     ∃ j', heap (updateScanError now id msg s) !! p = Some j' ∧
       ScanResult.Status j' = "failed" ∧ ScanResult.Error j' = msg ∧
       ScanResult.CompletedAt j' = now ∧
       ScanResult.ScanID j' = ScanResult.ScanID j ∧
       ScanResult.RepoURL j' = ScanResult.RepoURL j ∧
       ScanResult.StartedAt j' = ScanResult.StartedAt j ∧
       ScanResult.TotalSecrets j' = ScanResult.TotalSecrets j ∧
       ScanResult.Verified j' = ScanResult.Verified j ∧
       ScanResult.Unverified j' = ScanResult.Unverified j ∧
       ScanResult.Secrets j' = ScanResult.Secrets j ∧
       scans (updateScanError now id msg s) = scans s ∧
       webhookClient (updateScanError now id msg s) = webhookClient s ∧
       List.length (heap (updateScanError now id msg s))
         = List.length (heap s) ∧
       ∀ q, q ≠ p → heap (updateScanError now id msg s) !! q = heap s !! q).
Proof.
  split.
  - intros H. unfold updateScanError. by rewrite H.
  - intros p j Hp Hj. rewrite (updateScanError_alter _ _ _ _ _ Hp).
    eexists. simpl. rewrite list_lookup_alter_eq, Hj. simpl.
    split_and!; try done.
    + apply length_alter.
    + intros q Hq. by apply list_lookup_alter_ne.
Qed.

(** X15: [NewServer] fails exactly when the engine does not start,
    with the cause after the words "failed to start engine: ";
    otherwise the server has the given network behind its webhook
    client and knows no job: no status query is answered 200, and a
    list query returns an empty sequence and total 0. *)
Theorem NewServer_starts_empty engine_Start net :
  match NewServer engine_Start net with
  | inl err =>
      ∃ cause, engine_Start = Some cause ∧
               err = "failed to start engine: " ++ cause
  | inr s =>
      engine_Start = None ∧ webhookClient s = net ∧
      (∀ id, job_at s id = None) ∧
      (∀ r, rw_code (HandleGetScan r s).1
            ∈ [StatusBadRequest; StatusNotFound; StatusMethodNotAllowed]) ∧
      (∀ r, Method r = "GET" →
            rw_body (HandleListScans range r s).1
            = Json (JObject [("scans", JArray []); ("total", JNumber 0)]))
  end.
Proof.
  unfold NewServer. destruct engine_Start as [cause|]; [by exists cause|].
  split_and!; [done | done | | |].
  - intros id. unfold job_at. simpl. by rewrite lookup_empty.
  - intros r. unfold HandleGetScan. repeat case_decide; simpl; [set_solver..|].
    rewrite lookup_empty. simpl. set_solver.
  - intros r Hm. rewrite HandleListScans_GET by done. simpl.
    unfold listed. simpl.
    assert (range (∅ : gmap string nat) = []) as ->; [|done].
    apply Permutation_nil_r. by rewrite range_perm, map_to_list_empty.
Qed.

End registry_writes.

Section grouping.

Import webhook_server.

Lemma filter_none {A} (P : A → Prop) `{∀ x, Decision (P x)} (l : list A) :
  Forall (λ x, ¬ P x) l → filter P l = [].
Proof.
  induction 1 as [|x l Hx _ IH]; [done|].
  by rewrite filter_cons, decide_False.
Qed.

Lemma count_of_snoc b t l s :
  count_of b t (l ++ [s])
  = (count_of b t l
     + (if decide (detector_type s = t ∧ verified s = b) then 1 else 0))%Z.
Proof.
  unfold count_of. rewrite filter_app, length_app, filter_cons, filter_nil.
  case_decide; simpl; lia.
Qed.

Lemma byType_spec secrets :
  Forall (λ s, detector_type s ∉ Object_prototype) secrets →
  ∃ m, byType secrets = Some m ∧
       ∀ t, m !! t
            = (if decide (t ∈ detector_type <$> secrets)
               then Some (count_of true t secrets, count_of false t secrets)
               else None).
Proof.
  induction secrets as [|s l IH] using rev_ind; intros HF.
  - exists ∅. split; [done|]. intros t. rewrite lookup_empty.
    rewrite decide_False; [done|]. by intros ?%elem_of_nil.
  - apply Forall_app in HF as [HF Hs%Forall_inv].
    destruct (IH HF) as (m & Hm & Hspec).
    unfold byType in *. rewrite foldl_app. cbn [foldl]. rewrite Hm.
    unfold count_secret. cbn [mbind option_bind].
    cbv beta in Hs. rewrite decide_False by exact Hs.
    set (k := detector_type s).
    set (m1 := match m !! k with Some _ => m | None => <[k := (0, 0)%Z]> m end).
    assert (∀ t, m1 !! t
                 = if decide (t ∈ detector_type <$> (l ++ [s])%list)
                   then Some (count_of true t l, count_of false t l)
                   else None) as Hm1.
    { intros t. unfold m1. rewrite fmap_app. cbn [fmap list_fmap].
      destruct (decide (t = k)) as [->|Hne].
      - rewrite decide_True by set_solver.
        destruct (m !! k) as [c|] eqn:Hk.
        + rewrite Hk. rewrite Hspec in Hk. by case_decide.
        + rewrite lookup_insert_eq. rewrite Hspec in Hk. case_decide; [done|].
          unfold count_of. f_equal.
          assert (∀ b, filter (λ s0, detector_type s0 = k ∧ verified s0 = b) l
                       = []) as Hnil.
          { intros b. apply filter_none, Forall_forall.
            intros x Hx [Hxk _]. apply H. rewrite <- Hxk.
            by apply list_elem_of_fmap_2. }
          by rewrite !Hnil.
      - assert ((match m !! k with
                 | Some _ => m | None => <[k := (0, 0)%Z]> m end) !! t
                = m !! t) as ->.
        { destruct (m !! k); [done|]. by rewrite lookup_insert_ne. }
        rewrite Hspec. repeat case_decide; try done; set_solver. }
    set (upd := λ c : Z * Z,
                  if verified s then (c.1 + 1, c.2)%Z else (c.1, c.2 + 1)%Z).
    exists (alter upd k m1). split; [unfold upd; by destruct (verified s)|].
    intros t. rewrite lookup_alter, !count_of_snoc. fold k.
    destruct (decide (k = t)) as [<-|Hne]; rewrite Hm1.
    + assert (k ∈ detector_type <$> (l ++ [s])%list) as Hin
        by (rewrite fmap_app; set_solver).
      rewrite !(decide_True _ _ Hin).
      cbn [fmap option_fmap option_map]. f_equal. unfold upd.
      destruct (verified s); cbn [fst snd].
      * rewrite (decide_True (P := k = k ∧ true = true)) by done.
        rewrite (decide_False (P := k = k ∧ true = false))
          by (by intros [_ ?]).
        f_equal; lia.
      * rewrite (decide_False (P := k = k ∧ false = true))
          by (by intros [_ ?]).
        rewrite (decide_True (P := k = k ∧ false = false)) by done.
        f_equal; lia.
    + rewrite (decide_False (P := k = t ∧ verified s = true))
        by (by intros [? _]).
      rewrite (decide_False (P := k = t ∧ verified s = false))
        by (by intros [? _]).
      case_decide; [|done]. f_equal. f_equal; lia.
Qed.

Lemma received_type_not_inherited r :
  detector_type (received (secret_of r)) ∉ Object_prototype.
Proof.
  assert (detector_type (received (secret_of r))
          = detectorspb.String_ (detectors.DetectorType r)) as ->.
  { unfold received, secret_of.
    by destruct (detectors.SourceMetadata_ r). }
  destruct (detectors.DetectorType r); apply (bool_decide_unpack _); by vm_compute.
Qed.

(** X16: the receiver of the example counts every secret once, under
    its own type.  When no detector type is the name of a property
    inherited from [Object.prototype], the loop ends with one entry per
    type that occurs, holding the number of verified and the number of
    unverified secrets of that type, and no entry for any other type;
    every secret the server builds from a detector result meets that
    condition. *)
Theorem byType_counts_each_type :
  (∀ secrets,
     Forall (λ s, detector_type s ∉ Object_prototype) secrets →
     ∃ m, byType secrets = Some m ∧
          ∀ t, m !! t
               = (if decide (t ∈ detector_type <$> secrets)
                  then Some (count_of true t secrets,
                             count_of false t secrets)
                  else None)) ∧
  (∀ results : list detectors.Result,
     Forall (λ s, detector_type s ∉ Object_prototype)
            ((λ r, received (secret_of r)) <$> results)).
Proof.
  split; [apply byType_spec|].
  intros results. rewrite Forall_fmap, Forall_forall. intros r _.
  apply received_type_not_inherited.
Qed.

End grouping.

Section retention.

Variable url_parses : string → bool.
Variable range : gmap string nat → list (string * nat).
Hypothesis range_perm : ∀ m, range m ≡ₚ map_to_list m.




End retention.

(** ** The further properties on the concrete run *)

Lemma FromData_reports_occurrences_witness :
  ∃ results,
    exa.FromData elements no_network sample_scanner None false sample_data
      = Some results ∧
    Forall (λ r, Contains sample_data (detectors.Raw r) = true) results.
Proof.
  destruct (FromData_reports_occurrences elements
              (λ m, reflexivity (elements m))
              no_network sample_scanner None false sample_data)
    as (results & H1 & H2 & _).
  exists results. split; [exact H1 | exact H2].
Defined.

Lemma FromData_finds_delimited_key_witness :
  ∃ r, exa.FromData elements no_network sample_scanner None false
         (": " ++ sample_key1 ++ ";")
       = Some [r] ∧
       detectors.Raw r = sample_key1.
Proof.
  destruct (FromData_finds_delimited_key elements
              (λ m, reflexivity (elements m))
              no_network sample_scanner None false ": " sample_key1 ";")
    as (r & H1 & H2 & _); [by vm_compute..|].
  exists r. split; [exact H1 | exact H2].
Defined.

Lemma FromData_verifies_each_result_witness :
  ∃ results,
    exa.FromData elements ok_network sample_scanner
      (Some {| ctx_name := "bg" |}) true sample_data = Some results ∧
    Forall (λ r, detectors.Verified r = true
                 ↔ responds (chosen_client ok_network sample_scanner)
                     (exa_request {| ctx_name := "bg" |} (detectors.Raw r))
                     200)
           results.
Proof.
  destruct (FromData_verifies_each_result elements
              (λ m, reflexivity (elements m))
              ok_network sample_scanner sample_data) as [H _].
  exact (H {| ctx_name := "bg" |}).
Defined.

Lemma FromData_unverified_is_offline_witness :
  exa.FromData elements no_network sample_scanner None false sample_data
  = exa.FromData elements ok_network {| exa.client := Some no_network |}
      (Some {| ctx_name := "bg" |}) false sample_data.
Proof.
  destruct (FromData_unverified_is_offline elements
              (λ m, reflexivity (elements m))
              no_network sample_scanner None
              ok_network {| exa.client := Some no_network |}
              (Some {| ctx_name := "bg" |}) sample_data) as [H _].
  exact H.
Defined.

Lemma FromData_order_is_irrelevant_witness :
  ∃ results1 results2,
    exa.FromData elements no_network sample_scanner None false sample_data
      = Some results1 ∧
    exa.FromData (λ m, reverse (elements m)) no_network sample_scanner None
      false sample_data = Some results2 ∧
    results1 ≡ₚ results2.
Proof.
  exact (FromData_order_is_irrelevant elements (λ m, reverse (elements m))
           (λ m, reflexivity (elements m))
           (λ m, reverse_Permutation (elements m))
           no_network sample_scanner None false sample_data).
Defined.

Lemma final_world_reachable : reachable always_parses map_to_list final_world.
Proof.
  destruct sample_final_run as [tr Hrun].
  by eapply reachable_run; [apply sample_world_reachable|].
Qed.

Lemma running_world_reachable :
  reachable always_parses map_to_list running_world.
Proof.
  unfold running_world.
  eapply (reachable_next _ _ _ _ _ _ (sample_goroutine (AtSetSourceUnit 0)));
    [|by vm_compute|constructor].
  eapply (reachable_next _ _ _ _ _ _ (sample_goroutine (AtInit 0)));
    [|by vm_compute|constructor].
  eapply (reachable_next _ _ _ _ _ _ (sample_goroutine AtStart));
    [|by vm_compute|constructor].
  apply reachable_submit; [|by vm_compute].
  exists ok_network, []. constructor.
Qed.

Lemma running_goroutine_at :
  goroutines running_world !! 0%nat = Some (sample_goroutine (AtCollect 0)).
Proof. by vm_compute. Qed.

Lemma running_collect_step :
  performScan_step always_parses "t1" None sample_sent
    (sample_goroutine (AtCollect 0)) (srv running_world)
  = Some (sample_goroutine AtWebhook, srv sample_world, []).
Proof. by vm_compute. Qed.

Lemma performScan_never_panics_witness :
  ∃ g' s' out,
    performScan_step always_parses "t1" None sample_sent
      (sample_goroutine (AtCollect 0)) (srv running_world)
      = Some (g', s', out) ∧
    g_scanID g' = "job-1" ∧ g_req g' = sample_request ∧
    steps_left (g_pc g') < steps_left (AtCollect 0) ≤ 5.
Proof.
  exact (performScan_never_panics always_parses map_to_list running_world 0
           (sample_goroutine (AtCollect 0)) "t1" None sample_sent
           running_world_reachable running_goroutine_at
           (λ H : AtCollect 0 = Returned, eq_ind (AtCollect 0)
              (λ c, match c with AtCollect _ => True | _ => False end)
              I Returned H)).
Defined.

Lemma performScan_touches_own_job_only_witness :
  scans (srv sample_world) = scans (srv running_world) ∧
  webhookClient (srv sample_world) = webhookClient (srv running_world) ∧
  List.length (heap (srv sample_world))
    = List.length (heap (srv running_world)) ∧
  ∀ id, id ≠ "job-1" →
        job_at (srv sample_world) id = job_at (srv running_world) id.
Proof.
  exact (performScan_touches_own_job_only always_parses map_to_list
           running_world 0 (sample_goroutine (AtCollect 0)) "t1" None
           sample_sent (sample_goroutine AtWebhook) (srv sample_world) []
           running_world_reachable running_goroutine_at running_collect_step).
Defined.

Lemma stored_job_shape_witness :
  shaped sample_job ∧
  (ScanResult.Status sample_job = "failed"
   ↔ ScanResult.Error sample_job ≠ "") ∧
  member "error" (ScanResult.Marshal sample_job)
  = (if decide (ScanResult.Status sample_job = "failed")
     then Some (JString (ScanResult.Error sample_job)) else None).
Proof.
  exact (stored_job_shape always_parses map_to_list sample_world "job-1"
           sample_job sample_world_reachable sample_job_at).
Defined.

Lemma job_identity_is_immutable_witness :
  ScanResult.ScanID sample_job = "job-1" ∧
  ∃ j', job_at (srv final_world) "job-1" = Some j' ∧
        ScanResult.ScanID j' = "job-1" ∧
        ScanResult.RepoURL j' = ScanResult.RepoURL sample_job ∧
        ScanResult.StartedAt j' = ScanResult.StartedAt sample_job.
Proof.
  destruct sample_final_run as [tr Hrun].
  exact (job_identity_is_immutable always_parses map_to_list sample_world tr
           final_world "job-1" sample_job sample_world_reachable Hrun
           sample_job_at).
Defined.

Lemma submitted_job_is_readable_witness :
  HandleGetScan (sample_get "job-1")
    (HandleScan "job-1" "t0" sample_post (srv (initial ok_network))).1.2
  = ({| rw_code := StatusOK; rw_ContentType := "application/json";
        rw_body := Json (ScanResult.Marshal
                           (pending_job "job-1" "t0" sample_request)) |},
     (HandleScan "job-1" "t0" sample_post (srv (initial ok_network))).1.2).
Proof.
  destruct (submitted_job_is_readable "job-1" "t0" sample_post
              (sample_get "job-1") (srv (initial ok_network)) sample_request)
    as (_ & H & _); [done..|].
  exact H.
Defined.

Lemma GetStatus_returns_the_job_asked_for_witness :
  ∃ j,
    job_at (srv sample_world) "job-1" = Some j ∧
    HandleGetScan (sample_get "job-1") (srv sample_world)
    = ({| rw_code := StatusOK; rw_ContentType := "application/json";
          rw_body := Json (ScanResult.Marshal j) |}, srv sample_world) ∧
    member "scan_id" (ScanResult.Marshal j) = Some (JString "job-1") ∧
    ScanResult.Status j ∈ ["pending"; "running"; "completed"; "failed"].
Proof.
  apply (GetStatus_returns_the_job_asked_for always_parses map_to_list
           sample_world (sample_get "job-1") 0 sample_world_reachable);
    by vm_compute.
Defined.

Lemma webhook_deliveries_witness :
  delivered final_world
  ≡ₚ (λ g, webhook_request (ScanRequest.WebhookURL (g_req g)))
       <$> filter (λ g, notified always_parses g = true)
                  (goroutines final_world).
Proof.
  destruct (webhook_deliveries always_parses map_to_list final_world
              final_world_reachable) as (H & _).
  exact H.
Defined.

Lemma only_accepted_scans_change_the_server_witness :
  ∃ rw,
    ServeHTTP map_to_list "job-2" "t3" "/health" sample_post (srv sample_world)
    = (Some rw, srv sample_world, None) ∧
    rw_code rw = StatusOK ∧
    rw_body rw = Json (JObject [("status", JString "healthy")]).
Proof.
  destruct (only_accepted_scans_change_the_server map_to_list "job-2" "t3"
              "/health" sample_post (srv sample_world)) as (_ & H & _).
  exact (H eq_refl).
Defined.

Lemma updateScanError_writes_three_fields_witness :
  updateScanError "t3" "job-2" "late" (srv sample_world) = srv sample_world.
Proof.
  destruct (updateScanError_writes_three_fields "t3" "job-2" "late"
              (srv sample_world)) as [H _].
  apply H. by vm_compute.
Defined.

Lemma NewServer_starts_empty_witness :
  match NewServer None ok_network with
  | inl err =>
      ∃ cause, None = Some cause ∧ err = "failed to start engine: " ++ cause
  | inr s =>
      None = (None : option error) ∧ webhookClient s = ok_network ∧
      (∀ id, job_at s id = None) ∧
      (∀ r, rw_code (HandleGetScan r s).1
            ∈ [StatusBadRequest; StatusNotFound; StatusMethodNotAllowed]) ∧
      (∀ r, Method r = "GET" →
            rw_body (HandleListScans map_to_list r s).1
            = Json (JObject [("scans", JArray []); ("total", JNumber 0)]))
  end.
Proof.
  exact (NewServer_starts_empty map_to_list (λ m, reflexivity (map_to_list m))
           None ok_network).
Defined.

Lemma byType_counts_each_type_witness :
  ∃ m, webhook_server.byType
         (webhook_server.received <$> ScanResult.Secrets sample_job)
       = Some m ∧
       m !! "Exa" = Some (0%Z, 2%Z).
Proof.
  destruct byType_counts_each_type as [H _].
  destruct (H (webhook_server.received <$> ScanResult.Secrets sample_job))
    as (m & Hm & Hspec).
  { repeat constructor; apply (bool_decide_unpack _); by vm_compute. }
  exists m. split; [exact Hm|]. rewrite Hspec. by vm_compute.
Defined.

